(** * mapinfo: the Build-engine MAP dumper of duke3d-cli-tools

    A shallow embedding of the two [mapinfo.c] variants of the repository
    (the classifying dumper and the one-line summary dumper) and the
    properties of their decoder, gameplay classifier and batch loop.

    Modelling conventions.
    - C integer objects are [Z] values; an object in memory is the list of
      its bytes, least significant first (the MAP format and the hosts the
      tools are built for are little-endian; [sizeof(short) = 2],
      [sizeof(int) = 4]).
    - A [FILE*] opened for reading is the list of bytes not yet consumed.
    - [malloc] returns either [NULL] ([None]) or an array whose initial
      content is arbitrary; that content is an input of the model.
    - Standard output, standard error and [exit] are made explicit by the
      [proc] monad: a computation yields the events it emitted and either
      returns, exits the process with a status, or faults (an access outside
      an array or through [NULL]). *)

From Stdlib Require Import ZArith String Ascii List Lia Bool Permutation.
From Stdlib Require Import DecimalString.
From Stdlib Require DecimalFacts.
From Stdlib.Strings Require Import Byte.
Import ListNotations.

Open Scope string_scope.
Open Scope list_scope.
Open Scope Z_scope.

(** ** Bytes and C scalar objects *)

Definition byte_to_Z (b : byte) : Z := Z.of_N (Byte.to_N b).

Definition byte_of_Z (z : Z) : byte :=
  match Byte.of_N (Z.to_N (z mod 256)) with
  | Some b => b
  | None => x00
  end.

(** Value of a little-endian byte sequence, read as an unsigned number. *)
Fixpoint le_combine (bs : list byte) : Z :=
  match bs with
  | [] => 0
  | b :: rest => byte_to_Z b + 256 * le_combine rest
  end.

(** The [n] low bytes of [z], least significant first. *)
Fixpoint le_split (n : nat) (z : Z) : list byte :=
  match n with
  | O => []
  | S n' => byte_of_Z z :: le_split n' (z / 256)
  end.

(** The scalar types that occur in the MAP structures. *)
Inductive ctype : Type :=
| t_schar  (* signed char *)
| t_uchar  (* unsigned char *)
| t_short  (* short *)
| t_ushort (* unsigned short *)
| t_int.   (* int *)

Definition sizeof (t : ctype) : nat :=
  match t with
  | t_schar | t_uchar => 1
  | t_short | t_ushort => 2
  | t_int => 4
  end%nat.

Definition is_signed (t : ctype) : bool :=
  match t with
  | t_schar | t_short | t_int => true
  | t_uchar | t_ushort => false
  end.

Definition bits (t : ctype) : Z := 8 * Z.of_nat (sizeof t).

Definition min_value (t : ctype) : Z :=
  if is_signed t then - 2 ^ (bits t - 1) else 0.

Definition max_value (t : ctype) : Z :=
  if is_signed t then 2 ^ (bits t - 1) - 1 else 2 ^ bits t - 1.

Definition in_range (t : ctype) (v : Z) : Prop :=
  min_value t <= v <= max_value t.

(** Two's complement reading of an unsigned [w]-bit pattern. *)
Definition to_signed (w : Z) (u : Z) : Z :=
  if u <? 2 ^ (w - 1) then u else u - 2 ^ w.

(** Reading an lvalue of type [t] whose bytes are [bs]. *)
Definition load (t : ctype) (bs : list byte) : Z :=
  let u := le_combine (firstn (sizeof t) bs) in
  if is_signed t then to_signed (bits t) u else u.

(** The bytes of an object of type [t] holding [v]. *)
Definition store (t : ctype) (v : Z) : list byte := le_split (sizeof t) v.

(** ** Streams

    [fread(ptr, 1, size, fp)] copies as many bytes as the stream still has,
    at most [size], over the beginning of the object at [ptr]; what it does
    not overwrite keeps its previous content.  The callers discard the
    returned count. *)

Definition FILE : Type := list byte.

Definition reader (A : Type) : Type := FILE -> A * FILE.

Definition rret {A} (a : A) : reader A := fun fp => (a, fp).

Definition rbind {A B} (c : reader A) (k : A -> reader B) : reader B :=
  fun fp => let (a, fp') := c fp in k a fp'.

Declare Scope reader_scope.
Delimit Scope reader_scope with reader.
Notation "x <- c ;; k" := (rbind c (fun x => k))
  (at level 61, c at next level, right associativity) : reader_scope.

Definition fread_bytes (old : list byte) (size : nat) : reader (list byte) :=
  fun fp =>
    let got := firstn size fp in
    (got ++ skipn (length got) old, skipn size fp).

(** [fread(&x, 1, sizeof(x), fp)] for an [x] of type [t] that held [old]. *)
Definition fread (t : ctype) (old : Z) : reader Z :=
  fun fp =>
    let (bs, fp') := fread_bytes (store t old) (sizeof t) fp in
    (load t bs, fp').

(** ** The MAP structures *)

Record vec2_i32_t := { v2i32_x : Z; v2i32_y : Z }.
Record vec2_i8_t := { v2i8_x : Z; v2i8_y : Z }.
Record vec2_u8_t := { v2u8_x : Z; v2u8_y : Z }.
Record vec3_i16_t := { v3i16_x : Z; v3i16_y : Z; v3i16_z : Z }.
Record vec3_i32_t := { v3i32_x : Z; v3i32_y : Z; v3i32_z : Z }.

Record player_t := { player_position : vec3_i32_t; player_angle : Z }.

Record ceilling_floor_t := {
  cf_shade : Z;
  cf_height : Z;
  cf_pic : Z;
  cf_slope : Z;
  cf_stat : Z;
  cf_palette : Z;
  cf_panning : vec2_u8_t
}.

Record sector_t := {
  wall_ptr : Z;
  sector_wall_count : Z;
  ceilling : ceilling_floor_t;
  floor : ceilling_floor_t;
  visibility : Z;
  sector_filler : Z;
  sector_lotag : Z;
  sector_hitag : Z;
  sector_extra : Z
}.

Record wall_t := {
  wall_position : vec2_i32_t;
  wall_next_right : Z;
  wall_next_left : Z;
  sector_next : Z;
  wall_stat : Z;
  wall_pic : Z;
  pic_over : Z;
  wall_shade : Z;
  wall_pal : Z;
  wall_repeat : vec2_u8_t;
  wall_panning : vec2_u8_t;
  wall_lotag : Z;
  wall_hitag : Z;
  wall_extra : Z
}.

Record sprite_t := {
  position : vec3_i32_t;
  stat : Z;
  pic : Z;
  shade : Z;
  pal : Z;
  clipping_distance : Z;
  filler : Z;
  repeat : vec2_u8_t;
  offset : vec2_i8_t;
  sector_of : Z;   (* the field [sector] *)
  status : Z;
  angle : Z;
  owner : Z;
  vel : vec3_i16_t;
  lotag : Z;
  hitag : Z;
  extra : Z
}.

(** The three arrays are pointers: [None] is [NULL]. *)
Record map_t := {
  version : Z;
  player : player_t;
  sector_start : Z;
  sector_count : Z;
  sector : option (list sector_t);
  wall_count : Z;
  wall : option (list wall_t);
  sprite_count : Z;
  sprite : option (list sprite_t)
}.

(** [map_t map = {0}]. *)
Definition map_zero : map_t :=
  {| version := 0;
     player := {| player_position := {| v3i32_x := 0; v3i32_y := 0; v3i32_z := 0 |};
                  player_angle := 0 |};
     sector_start := 0;
     sector_count := 0; sector := None;
     wall_count := 0; wall := None;
     sprite_count := 0; sprite := None |}.

(** ** Processes: output, [exit] and faults *)

Inductive event : Type :=
| Stdout (text : string)    (* one [printf] call *)
| Stderr (text : string)    (* one [fprintf(stderr, ...)] call *)
| Perror (prefix : string). (* [perror(prefix)]; the message depends on [errno] *)

Inductive outcome (A : Type) : Type :=
| Returned (a : A)
| Exited (status : Z)       (* [exit(status)] *)
| Fault.                    (* access through [NULL] or outside an array *)

Arguments Returned {A} a.
Arguments Exited {A} status.
Arguments Fault {A}.

Definition proc (A : Type) : Type := (list event * outcome A)%type.

Definition ret {A} (a : A) : proc A := ([], Returned a).

Definition bind {A B} (c : proc A) (k : A -> proc B) : proc B :=
  match c with
  | (out, Returned a) => let (out', r) := k a in (out ++ out', r)
  | (out, Exited status) => (out, Exited status)
  | (out, Fault) => (out, Fault)
  end.

Definition emit (e : event) : proc unit := ([e], Returned tt).
Definition exit {A} (status : Z) : proc A := ([], Exited status).
Definition fault {A} : proc A := ([], Fault).

Declare Scope proc_scope.
Delimit Scope proc_scope with proc.
Notation "x <- c ;; k" := (bind c (fun x => k))
  (at level 61, c at next level, right associativity) : proc_scope.
Notation "c ;;; k" := (bind c (fun _ => k))
  (at level 61, right associativity) : proc_scope.

Definition events {A} (c : proc A) : list event := fst c.
Definition result {A} (c : proc A) : outcome A := snd c.

(** The exit statuses of the anonymous [enum]. *)
Definition error_fclose : Z := 2.
Definition error_fopen : Z := 3.
Definition error_fseek : Z := 4.
Definition error_ftell : Z := 5.
Definition error_fwrite : Z := 6.
Definition error_name_upper : Z := 7.
Definition EXIT_SUCCESS : Z := 0.
Definition EXIT_FAILURE : Z := 1.

(** ** The environment of a run *)

(** What the allocator hands out for the three arrays of one map: [None]
    when [malloc] returns [NULL], otherwise the indeterminate initial content
    of each element. *)
Record heap_t := {
  sector_mem : option (nat -> sector_t);
  wall_mem : option (nat -> wall_t);
  sprite_mem : option (nat -> sprite_t)
}.

Record world := {
  file_content : string -> option (list byte); (* [None]: [fopen] fails *)
  fclose_fails : string -> bool;
  allocations : nat -> heap_t                  (* per iteration of [main] *)
}.

Definition malloc {A} (mem : option (nat -> A)) (count : Z) : option (list A) :=
  match mem with
  | None => None
  | Some junk => Some (map junk (seq 0 (Z.to_nat count)))
  end.

Definition safe_fopen (w : world) (path : string) : proc FILE :=
  match file_content w path with
  | Some fp => ret fp
  | None => (emit (Perror "fopen") ;;; exit error_fopen)%proc
  end.

Definition safe_fclose (w : world) (path : string) : proc unit :=
  if fclose_fails w path
  then (emit (Perror "fclose") ;;; exit error_fclose)%proc
  else ret tt.

(** ** The decoder *)

Definition sector_read (sector : sector_t) : reader sector_t :=
  (wall_ptr' <- fread t_short (wall_ptr sector) ;;
   wall_count' <- fread t_short (sector_wall_count sector) ;;
   c_height <- fread t_int (cf_height (ceilling sector)) ;;
   f_height <- fread t_int (cf_height (floor sector)) ;;
   c_stat <- fread t_short (cf_stat (ceilling sector)) ;;
   f_stat <- fread t_short (cf_stat (floor sector)) ;;
   c_pic <- fread t_short (cf_pic (ceilling sector)) ;;
   c_slope <- fread t_short (cf_slope (ceilling sector)) ;;
   c_shade <- fread t_schar (cf_shade (ceilling sector)) ;;
   c_palette <- fread t_uchar (cf_palette (ceilling sector)) ;;
   c_pan_x <- fread t_uchar (v2u8_x (cf_panning (ceilling sector))) ;;
   c_pan_y <- fread t_uchar (v2u8_y (cf_panning (ceilling sector))) ;;
   f_pic <- fread t_short (cf_pic (floor sector)) ;;
   f_slope <- fread t_short (cf_slope (floor sector)) ;;
   f_shade <- fread t_schar (cf_shade (floor sector)) ;;
   f_palette <- fread t_uchar (cf_palette (floor sector)) ;;
   f_pan_x <- fread t_uchar (v2u8_x (cf_panning (floor sector))) ;;
   f_pan_y <- fread t_uchar (v2u8_y (cf_panning (floor sector))) ;;
   visibility' <- fread t_uchar (visibility sector) ;;
   filler' <- fread t_uchar (sector_filler sector) ;;
   lotag' <- fread t_short (sector_lotag sector) ;;
   hitag' <- fread t_short (sector_hitag sector) ;;
   extra' <- fread t_short (sector_extra sector) ;;
   rret {| wall_ptr := wall_ptr';
           sector_wall_count := wall_count';
           ceilling := {| cf_shade := c_shade; cf_height := c_height;
                          cf_pic := c_pic; cf_slope := c_slope;
                          cf_stat := c_stat; cf_palette := c_palette;
                          cf_panning := {| v2u8_x := c_pan_x; v2u8_y := c_pan_y |} |};
           floor := {| cf_shade := f_shade; cf_height := f_height;
                       cf_pic := f_pic; cf_slope := f_slope;
                       cf_stat := f_stat; cf_palette := f_palette;
                       cf_panning := {| v2u8_x := f_pan_x; v2u8_y := f_pan_y |} |};
           visibility := visibility';
           sector_filler := filler';
           sector_lotag := lotag';
           sector_hitag := hitag';
           sector_extra := extra' |})%reader.

Definition wall_read (wall : wall_t) : reader wall_t :=
  (x <- fread t_int (v2i32_x (wall_position wall)) ;;
   y <- fread t_int (v2i32_y (wall_position wall)) ;;
   next_right <- fread t_short (wall_next_right wall) ;;
   next_left <- fread t_short (wall_next_left wall) ;;
   sector_next' <- fread t_short (sector_next wall) ;;
   stat' <- fread t_short (wall_stat wall) ;;
   pic' <- fread t_short (wall_pic wall) ;;
   pic_over' <- fread t_short (pic_over wall) ;;
   shade' <- fread t_schar (wall_shade wall) ;;
   pal' <- fread t_uchar (wall_pal wall) ;;
   repeat_x <- fread t_uchar (v2u8_x (wall_repeat wall)) ;;
   repeat_y <- fread t_uchar (v2u8_y (wall_repeat wall)) ;;
   panning_x <- fread t_uchar (v2u8_x (wall_panning wall)) ;;
   panning_y <- fread t_uchar (v2u8_y (wall_panning wall)) ;;
   lotag' <- fread t_short (wall_lotag wall) ;;
   hitag' <- fread t_short (wall_hitag wall) ;;
   extra' <- fread t_short (wall_extra wall) ;;
   rret {| wall_position := {| v2i32_x := x; v2i32_y := y |};
           wall_next_right := next_right;
           wall_next_left := next_left;
           sector_next := sector_next';
           wall_stat := stat';
           wall_pic := pic';
           pic_over := pic_over';
           wall_shade := shade';
           wall_pal := pal';
           wall_repeat := {| v2u8_x := repeat_x; v2u8_y := repeat_y |};
           wall_panning := {| v2u8_x := panning_x; v2u8_y := panning_y |};
           wall_lotag := lotag';
           wall_hitag := hitag';
           wall_extra := extra' |})%reader.

(** The loop [for (i = 0; i < count; ++i) read(&a[i], fp)] over an array
    [a] of [count] elements. *)
Fixpoint read_array {A} (read : A -> reader A) (a : list A) : reader (list A) :=
  match a with
  | [] => rret []
  | x :: rest =>
      (x' <- read x ;;
       rest' <- read_array read rest ;;
       rret (x' :: rest'))%reader
  end.

(** [p = malloc(...); if (p) { the loop }]. *)
Definition read_elements {A} (read : A -> reader A) (p : option (list A))
  : reader (option (list A)) :=
  match p with
  | None => rret None
  | Some a => (a' <- read_array read a ;; rret (Some a'))%reader
  end.

Section Decoder.

(** The two dumpers differ, as far as decoding goes, in one declaration:
    the type of [sprite_s.lotag] and [sprite_s.hitag]. *)
Variable tag_t : ctype.

Definition sprite_read_as (sprite : sprite_t) : reader sprite_t :=
  (x <- fread t_int (v3i32_x (position sprite)) ;;
   y <- fread t_int (v3i32_y (position sprite)) ;;
   z <- fread t_int (v3i32_z (position sprite)) ;;
   stat' <- fread t_short (stat sprite) ;;
   pic' <- fread t_short (pic sprite) ;;
   shade' <- fread t_schar (shade sprite) ;;
   pal' <- fread t_uchar (pal sprite) ;;
   clipping_distance' <- fread t_uchar (clipping_distance sprite) ;;
   filler' <- fread t_uchar (filler sprite) ;;
   repeat_x <- fread t_uchar (v2u8_x (repeat sprite)) ;;
   repeat_y <- fread t_uchar (v2u8_y (repeat sprite)) ;;
   offset_x <- fread t_schar (v2i8_x (offset sprite)) ;;
   offset_y <- fread t_schar (v2i8_y (offset sprite)) ;;
   sector' <- fread t_short (sector_of sprite) ;;
   status' <- fread t_short (status sprite) ;;
   angle' <- fread t_short (angle sprite) ;;
   owner' <- fread t_short (owner sprite) ;;
   vel_x <- fread t_short (v3i16_x (vel sprite)) ;;
   vel_y <- fread t_short (v3i16_y (vel sprite)) ;;
   vel_z <- fread t_short (v3i16_z (vel sprite)) ;;
   lotag' <- fread tag_t (lotag sprite) ;;
   hitag' <- fread tag_t (hitag sprite) ;;
   extra' <- fread t_short (extra sprite) ;;
   rret {| position := {| v3i32_x := x; v3i32_y := y; v3i32_z := z |};
           stat := stat';
           pic := pic';
           shade := shade';
           pal := pal';
           clipping_distance := clipping_distance';
           filler := filler';
           repeat := {| v2u8_x := repeat_x; v2u8_y := repeat_y |};
           offset := {| v2i8_x := offset_x; v2i8_y := offset_y |};
           sector_of := sector';
           status := status';
           angle := angle';
           owner := owner';
           vel := {| v3i16_x := vel_x; v3i16_y := vel_y; v3i16_z := vel_z |};
           lotag := lotag';
           hitag := hitag';
           extra := extra' |})%reader.

(** The part of [map_read] between [safe_fopen] and [safe_fclose]. *)
Definition map_read_stream_as (heap : heap_t) (map : map_t) : reader map_t :=
  (version' <- fread t_int (version map) ;;
   x <- fread t_int (v3i32_x (player_position (player map))) ;;
   y <- fread t_int (v3i32_y (player_position (player map))) ;;
   z <- fread t_int (v3i32_z (player_position (player map))) ;;
   angle' <- fread t_short (player_angle (player map)) ;;
   sector_start' <- fread t_short (sector_start map) ;;
   sector_count' <- fread t_ushort (sector_count map) ;;
   sector' <- read_elements sector_read (malloc (sector_mem heap) sector_count') ;;
   wall_count' <- fread t_ushort (wall_count map) ;;
   wall' <- read_elements wall_read (malloc (wall_mem heap) wall_count') ;;
   sprite_count' <- fread t_ushort (sprite_count map) ;;
   sprite' <- read_elements sprite_read_as (malloc (sprite_mem heap) sprite_count') ;;
   rret {| version := version';
           player := {| player_position := {| v3i32_x := x; v3i32_y := y; v3i32_z := z |};
                        player_angle := angle' |};
           sector_start := sector_start';
           sector_count := sector_count';
           sector := sector';
           wall_count := wall_count';
           wall := wall';
           sprite_count := sprite_count';
           sprite := sprite' |})%reader.

Definition map_read_as (w : world) (heap : heap_t) (map : map_t) (path : string)
  : proc map_t :=
  (fp <- safe_fopen w path ;;
   let map' := fst (map_read_stream_as heap map fp) in
   safe_fclose w path ;;;
   ret map')%proc.

End Decoder.

(** ** Formatted output *)

(** [%d] applied to an [int]. *)
Definition fmt_d (z : Z) : string := NilZero.string_of_int (Z.to_int z).

Inductive arg : Type :=
| arg_d (z : Z)
| arg_s (s : string).

(** The conversions the dumpers use: [%d] and [%s].  Arguments beyond the
    last conversion are ignored, as in C. *)
Fixpoint format (fmt : string) (args : list arg) : string :=
  match fmt with
  | EmptyString => EmptyString
  | String "%" (String "d" rest) =>
      match args with
      | arg_d z :: args' => String.append (fmt_d z) (format rest args')
      | _ => EmptyString
      end
  | String "%" (String "s" rest) =>
      match args with
      | arg_s s :: args' => String.append s (format rest args')
      | _ => EmptyString
      end
  | String c rest => String c (format rest args)
  end.

Definition LF : string := String "010" EmptyString.
Definition DQUOTE : string := String "034" EmptyString.

(** A format that ends in a newline. *)
Definition ln (fmt : string) : string := String.append fmt LF.

Definition printf (fmt : string) (args : list arg) : proc unit :=
  emit (Stdout (format fmt args)).

Definition fprintf_stderr (fmt : string) (args : list arg) : proc unit :=
  emit (Stderr (format fmt args)).

(** [snprintf(buffer, size, fmt, ...)]: the new content of [buffer]. *)
Definition snprintf (size : nat) (fmt : string) (args : list arg) : string :=
  String.substring 0 (size - 1) (format fmt args).

(** Arithmetic on [int]. *)
Definition wrap_int (z : Z) : Z := to_signed 32 (z mod 2 ^ 32).

Definition MAPINFO_VERSION : string := "1.0".

Definition usage {A} (prgname prgver : string) : proc A :=
  (fprintf_stderr (ln "%s %s : Copyright (c) 2026 Marc-Alexandre Espiaut")
                  [arg_s prgname; arg_s prgver] ;;;
   fprintf_stderr (ln "") [] ;;;
   fprintf_stderr (ln "%s is a tool for displaying informations about Build games maps (.map).")
                  [arg_s prgname] ;;;
   fprintf_stderr (ln "") [] ;;;
   fprintf_stderr (ln "Usage: %s [files]") [arg_s prgname] ;;;
   fprintf_stderr (ln "") [] ;;;
   fprintf_stderr (ln "Options:") [] ;;;
   fprintf_stderr (ln "  -h, --help             Show this help message and exit") [] ;;;
   fprintf_stderr (ln "") [] ;;;
   fprintf_stderr (ln "Examples:") [] ;;;
   fprintf_stderr (ln "  %s e1l1.map myhouse.map") [arg_s prgname] ;;;
   exit EXIT_FAILURE)%proc.

(** ** Array accesses *)

Definition index {A} (p : option (list A)) (i : nat) : proc A :=
  match p with
  | None => fault
  | Some a =>
      match nth_error a i with
      | Some x => ret x
      | None => fault
      end
  end.

(** ** The classifying dumper *)

Module Mapinfo.

(** [sprite_s.lotag] and [sprite_s.hitag] are [unsigned short] here. *)
Definition tag_t : ctype := t_ushort.

Definition sprite_read : sprite_t -> reader sprite_t := sprite_read_as tag_t.
Definition map_read_stream : heap_t -> map_t -> reader map_t :=
  map_read_stream_as tag_t.
Definition map_read : world -> heap_t -> map_t -> string -> proc map_t :=
  map_read_as tag_t.

(** The format has 22 conversions for 23 arguments. *)
Definition sector_print (s : sector_t) : proc unit :=
  printf (ln "[sector] wall_ptr: %d, wall_count: %d, ceilling (shade: %d, height: %d, pic: %d, slope: %d, stat: %d, palette: %d, panning: (%d, %d)), floor (shade: %d, height: %d, pic: %d, slope: %d, stat: %d, palette: %d, panning: (%d, %d)), filler: %d, lotag: %d, hitag: %d, extra: %d")
    [arg_d (wall_ptr s); arg_d (sector_wall_count s);
     arg_d (cf_shade (ceilling s)); arg_d (cf_height (ceilling s));
     arg_d (cf_pic (ceilling s)); arg_d (cf_slope (ceilling s));
     arg_d (cf_stat (ceilling s)); arg_d (cf_palette (ceilling s));
     arg_d (v2u8_x (cf_panning (ceilling s))); arg_d (v2u8_y (cf_panning (ceilling s)));
     arg_d (cf_shade (floor s)); arg_d (cf_height (floor s));
     arg_d (cf_pic (floor s)); arg_d (cf_slope (floor s));
     arg_d (cf_stat (floor s)); arg_d (cf_palette (floor s));
     arg_d (v2u8_x (cf_panning (floor s))); arg_d (v2u8_y (cf_panning (floor s)));
     arg_d (visibility s); arg_d (sector_filler s);
     arg_d (sector_lotag s); arg_d (sector_hitag s); arg_d (sector_extra s)].

(** The answers of [is_single_player]. *)
Definition yes_unknown : string := "Yes (??)".
Definition yes_fry : string :=
  String.concat "" ["Yes ("; DQUOTE; "We're gonna fry your ass, Nukem!"; DQUOTE; ")"].
Definition yes_nuke_button : string := "Yes (Normal nuke button)".
Definition yes_secret_exit : string := "Yes (Secret level exit)".
Definition no : string := "No".

(** The body of the first loop of [is_single_player] for the sprite it
    looks at: the string it returns, if it returns. *)
Definition nuke_button (s : sprite_t) : option string :=
  if pic s =? 142 then
    if lotag s =? 32767 then Some yes_unknown
    else if lotag s =? 65534 then Some yes_fry
    else if lotag s =? 65535 then Some yes_nuke_button
    else if pal s =? 14 then Some yes_secret_exit
    else None
  else None.

(** [for (; i < map->sprite_count; ++i)], with [n] iterations left. *)
Fixpoint nuke_button_scan (map : map_t) (n i : nat) : proc (option string) :=
  match n with
  | O => ret None
  | S n' =>
      (s <- index (sprite map) i ;;
       match nuke_button s with
       | Some answer => ret (Some answer)
       | None => nuke_button_scan map n' (S i)
       end)%proc
  end.

(** [for (; i < map->sector_count; ++i) sector_print(map->sector[i])]. *)
Fixpoint sector_dump (map : map_t) (n i : nat) : proc unit :=
  match n with
  | O => ret tt
  | S n' =>
      (s <- index (sector map) i ;;
       sector_print s ;;;
       sector_dump map n' (S i))%proc
  end.

Definition is_single_player (map : map_t) : proc string :=
  (found <- nuke_button_scan map (Z.to_nat (sprite_count map)) 0 ;;
   match found with
   | Some answer => ret answer
   | None =>
       sector_dump map (Z.to_nat (sector_count map)) 0 ;;;
       ret no
   end)%proc.

(** The counting loop shared, up to the tag it looks for, by
    [is_dukematch] and [is_coop]; [result] is an [int]. *)
Fixpoint count_player_starts (tag : Z) (map : map_t) (n i : nat) (result : Z)
  : proc Z :=
  match n with
  | O => ret result
  | S n' =>
      (s <- index (sprite map) i ;;
       count_player_starts tag map n' (S i)
         (if (pic s =? 1405) && (lotag s =? tag)
          then wrap_int (result + 1)
          else result))%proc
  end.

(** Both return the answer and leave [buffer] as the second component. *)
Definition is_dukematch (map : map_t) (buffer : string) : proc (string * string) :=
  (result <- count_player_starts 0 map (Z.to_nat (sprite_count map)) 0 0 ;;
   if result =? 0 then ret (no, buffer)
   else
     let buffer' := snprintf 256 "Yes (%d players)" [arg_d (wrap_int (result + 1))] in
     ret (buffer', buffer'))%proc.

Definition is_coop (map : map_t) (buffer : string) : proc (string * string) :=
  (result <- count_player_starts 1 map (Z.to_nat (sprite_count map)) 0 0 ;;
   if result =? 0 then ret (no, buffer)
   else
     let buffer' := snprintf 256 "Yes (%d players)" [arg_d (wrap_int (result + 1))] in
     ret (buffer', buffer'))%proc.

Definition is_vanilla_compatible (map : map_t) : string :=
  if (sector_count map <=? 1024) && (wall_count map <=? 8192)
     && (sprite_count map <=? 4096)
  then "Yes"
  else "No".

Definition map_print (map : map_t) (path : string) : proc unit :=
  (let buffer := EmptyString in
   printf (ln "Filename: %s") [arg_s path] ;;;
   printf (ln "MAP version: %d") [arg_d (version map)] ;;;
   single <- is_single_player map ;;
   printf (ln "Single Player: %s") [arg_s single] ;;;
   coop <- is_coop map buffer ;;
   printf (ln "Cooperative 2-8 Player: %s") [arg_s (fst coop)] ;;;
   dukematch <- is_dukematch map (snd coop) ;;
   printf (ln "DukeMatch 2-8 Player: %s") [arg_s (fst dukematch)] ;;;
   printf (ln "Atomic Edition Required: ") [] ;;;
   printf (ln "New Art: ") [] ;;;
   printf (ln (ln "Vanilla DUKE3D.EXE compatible: %s (%d sectors, %d walls, %d sprites)"))
          [arg_s (is_vanilla_compatible map); arg_d (sector_count map);
           arg_d (wall_count map); arg_d (sprite_count map)])%proc.

(** The body of [for (i = 1; i < argc; ++i)], from [argv[i]] on; [map_free]
    releases the arrays and has no effect that can be observed. *)
Fixpoint main_loop (w : world) (files : list string) (i : nat) : proc unit :=
  match files with
  | [] => ret tt
  | path :: rest =>
      (map <- map_read w (allocations w i) map_zero path ;;
       map_print map path ;;;
       main_loop w rest (S i))%proc
  end.

Definition main (w : world) (argv : list string) : proc Z :=
  match argv with
  | [] => fault
  | [prgname] => usage prgname MAPINFO_VERSION
  | _ :: files => (main_loop w files 1 ;;; ret EXIT_SUCCESS)%proc
  end.

End Mapinfo.

(** ** The summary dumper *)

Module MapinfoSummary.

(** [sprite_s.lotag] and [sprite_s.hitag] are [short] here. *)
Definition tag_t : ctype := t_short.

Definition sprite_read : sprite_t -> reader sprite_t := sprite_read_as tag_t.
Definition map_read_stream : heap_t -> map_t -> reader map_t :=
  map_read_stream_as tag_t.
Definition map_read : world -> heap_t -> map_t -> string -> proc map_t :=
  map_read_as tag_t.

(** The bytes that stand between [MAP] and [format] in the source. *)
Definition SEP : string :=
  String "195" (String "162" (String "226" (String "130"
    (String "172" (String "194" (String "175" EmptyString)))))).

Definition map_print (map : map_t) (path : string) : proc unit :=
  printf (ln (String.concat "" ["%s is a MAP"; SEP; "format %d, with player start position (%d, %d, %d) and angle %d in sector %d. The map has %d sectors, %d walls, and %d sprites."]))
    [arg_s path; arg_d (version map);
     arg_d (v3i32_x (player_position (player map)));
     arg_d (v3i32_y (player_position (player map)));
     arg_d (v3i32_z (player_position (player map)));
     arg_d (player_angle (player map)); arg_d (sector_start map);
     arg_d (sector_count map); arg_d (wall_count map); arg_d (sprite_count map)].

Fixpoint main_loop (w : world) (files : list string) (i : nat) : proc unit :=
  match files with
  | [] => ret tt
  | path :: rest =>
      (map <- map_read w (allocations w i) map_zero path ;;
       map_print map path ;;;
       main_loop w rest (S i))%proc
  end.

Definition main (w : world) (argv : list string) : proc Z :=
  match argv with
  | [] => fault
  | [prgname] => usage prgname MAPINFO_VERSION
  | _ :: files => (main_loop w files 1 ;;; ret EXIT_SUCCESS)%proc
  end.

End MapinfoSummary.

(** ** Sample records and streams *)

Definition sprite_zero : sprite_t :=
  {| position := {| v3i32_x := 0; v3i32_y := 0; v3i32_z := 0 |};
     stat := 0; pic := 0; shade := 0; pal := 0;
     clipping_distance := 0; filler := 0;
     repeat := {| v2u8_x := 0; v2u8_y := 0 |};
     offset := {| v2i8_x := 0; v2i8_y := 0 |};
     sector_of := 0; status := 0; angle := 0; owner := 0;
     vel := {| v3i16_x := 0; v3i16_y := 0; v3i16_z := 0 |};
     lotag := 0; hitag := 0; extra := 0 |}.

(** A sprite known by the three fields the classifier reads; its index
    fields point nowhere. *)
Definition marker (pic' lotag' pal' : Z) : sprite_t :=
  {| position := {| v3i32_x := 0; v3i32_y := 0; v3i32_z := 0 |};
     stat := 0; pic := pic'; shade := 0; pal := pal';
     clipping_distance := 0; filler := 0;
     repeat := {| v2u8_x := 0; v2u8_y := 0 |};
     offset := {| v2i8_x := 0; v2i8_y := 0 |};
     sector_of := 30000; status := 0; angle := 0; owner := -7;
     vel := {| v3i16_x := 0; v3i16_y := 0; v3i16_z := 0 |};
     lotag := lotag'; hitag := 0; extra := -1 |}.

Definition plane_zero : ceilling_floor_t :=
  {| cf_shade := 0; cf_height := 0; cf_pic := 0; cf_slope := 0;
     cf_stat := 0; cf_palette := 0;
     cf_panning := {| v2u8_x := 0; v2u8_y := 0 |} |}.

Definition sector_zero : sector_t :=
  {| wall_ptr := 0; sector_wall_count := 0;
     ceilling := plane_zero; floor := plane_zero;
     visibility := 0; sector_filler := 0;
     sector_lotag := 0; sector_hitag := 0; sector_extra := 0 |}.

Definition wall_zero : wall_t :=
  {| wall_position := {| v2i32_x := 0; v2i32_y := 0 |};
     wall_next_right := 0; wall_next_left := 0; sector_next := 0;
     wall_stat := 0; wall_pic := 0; pic_over := 0;
     wall_shade := 0; wall_pal := 0;
     wall_repeat := {| v2u8_x := 0; v2u8_y := 0 |};
     wall_panning := {| v2u8_x := 0; v2u8_y := 0 |};
     wall_lotag := 0; wall_hitag := 0; wall_extra := 0 |}.

(** A map with no sector and no wall that holds the given sprites. *)
Definition sprites_only (sprites : list sprite_t) : map_t :=
  {| version := 7;
     player := {| player_position := {| v3i32_x := 0; v3i32_y := 0; v3i32_z := 0 |};
                  player_angle := 0 |};
     sector_start := 0;
     sector_count := 0; sector := Some [];
     wall_count := 0; wall := Some [];
     sprite_count := Z.of_nat (length sprites); sprite := Some sprites |}.

(** A map known by its three counts alone. *)
Definition counts_only (sectors walls sprites : Z) : map_t :=
  {| version := 7;
     player := {| player_position := {| v3i32_x := 0; v3i32_y := 0; v3i32_z := 0 |};
                  player_angle := 0 |};
     sector_start := 0;
     sector_count := sectors; sector := None;
     wall_count := walls; wall := None;
     sprite_count := sprites; sprite := None |}.

(** An allocator that succeeds and hands out zeroed or marked memory. *)
Definition heap_zero : heap_t :=
  {| sector_mem := Some (fun _ => sector_zero);
     wall_mem := Some (fun _ => wall_zero);
     sprite_mem := Some (fun _ => sprite_zero) |}.

Definition heap_stale : heap_t :=
  {| sector_mem := Some (fun _ => sector_zero);
     wall_mem := Some (fun _ => wall_zero);
     sprite_mem := Some (fun _ => marker 142 65535 0) |}.

(** Version 7, player at the origin in sector 0, then the three counts
    with nothing between them: a complete file of an empty map. *)
Definition empty_map_file : list byte :=
  [x07; x00; x00; x00;
   x00; x00; x00; x00;  x00; x00; x00; x00;  x00; x00; x00; x00;
   x00; x00;
   x00; x00;
   x00; x00;
   x00; x00;
   x00; x00].

(** The same header and empty sector and wall arrays, then a count of one
    sprite and the end of the file. *)
Definition cut_map_file : list byte :=
  [x07; x00; x00; x00;
   x00; x00; x00; x00;  x00; x00; x00; x00;  x00; x00; x00; x00;
   x00; x00;
   x00; x00;
   x00; x00;
   x00; x00;
   x01; x00].

Definition sample_world (mem : heap_t) : world :=
  {| file_content := fun path =>
       if String.eqb path "empty.map" then Some empty_map_file
       else if String.eqb path "cut.map" then Some cut_map_file
       else None;
     fclose_fails := fun _ => false;
     allocations := fun _ => mem |}.

(** A map whose every index field points outside its target array. *)
Definition wild_sector : sector_t :=
  {| wall_ptr := -5; sector_wall_count := 32000;
     ceilling := plane_zero; floor := plane_zero;
     visibility := 0; sector_filler := 0;
     sector_lotag := 0; sector_hitag := 0; sector_extra := 0 |}.

Definition wild_wall : wall_t :=
  {| wall_position := {| v2i32_x := 0; v2i32_y := 0 |};
     wall_next_right := 9000; wall_next_left := -3; sector_next := 77;
     wall_stat := 0; wall_pic := 0; pic_over := 0;
     wall_shade := 0; wall_pal := 0;
     wall_repeat := {| v2u8_x := 0; v2u8_y := 0 |};
     wall_panning := {| v2u8_x := 0; v2u8_y := 0 |};
     wall_lotag := 0; wall_hitag := 0; wall_extra := 0 |}.

Definition wild_map : map_t :=
  {| version := 7;
     player := player map_zero;
     sector_start := 500;
     sector_count := 1; sector := Some [wild_sector];
     wall_count := 1; wall := Some [wild_wall];
     sprite_count := 2;
     sprite := Some [marker 1405 1 0; marker 142 3 3] |}.

(** The same marks on sprites whose index fields are in order, in a map
    whose empty sector and wall arrays are [NULL]. *)
Definition tame_sprite (pic' lotag' pal' owner' : Z) : sprite_t :=
  {| position := {| v3i32_x := 0; v3i32_y := 0; v3i32_z := 0 |};
     stat := 0; pic := pic'; shade := 0; pal := pal';
     clipping_distance := 0; filler := 0;
     repeat := {| v2u8_x := 0; v2u8_y := 0 |};
     offset := {| v2i8_x := 0; v2i8_y := 0 |};
     sector_of := -1; status := 0; angle := 0; owner := owner';
     vel := {| v3i16_x := 0; v3i16_y := 0; v3i16_z := 0 |};
     lotag := lotag'; hitag := 0; extra := 0 |}.

Definition tame_map : map_t :=
  {| version := 7;
     player := player map_zero;
     sector_start := -1;
     sector_count := 0; sector := None;
     wall_count := 0; wall := None;
     sprite_count := 2;
     sprite := Some [tame_sprite 1405 1 0 (-1); tame_sprite 142 3 3 1] |}.

(** One sprite record: picture 142, lotag bytes FF FF, hitag bytes FE FF,
    extra bytes FF FF. *)
Definition switch_record : list byte :=
  [x00; x00; x00; x00;  x00; x00; x00; x00;  x00; x00; x00; x00;
   x00; x00;
   x8e; x00;
   x00; x00; x00; x00;
   x00; x00;  x00; x00;
   x00; x00;  x00; x00;  x00; x00;  x00; x00;
   x00; x00;  x00; x00;  x00; x00;
   xff; xff;
   xfe; xff;
   xff; xff].

(** ** Specification-side notions *)

(** The elements behind an array pointer; [NULL] has none. *)
Definition elements {A} (p : option (list A)) : list A :=
  match p with
  | Some a => a
  | None => []
  end.

(** An array pointer good for [count] elements: it points to that many, or
    it is [NULL] and [count] is zero (as [malloc(0)] may return). *)
Definition holds {A} (count : Z) (p : option (list A)) : Prop :=
  match p with
  | Some a => Z.of_nat (length a) = count
  | None => count = 0
  end.

(** A map as [map_read] leaves it when its three allocations succeeded: the
    counts are [unsigned short] values and each array has as many elements
    as its count says.  Nothing is asked of the index fields. *)
Record decoded (m : map_t) : Prop := {
  decoded_sector_count : in_range t_ushort (sector_count m);
  decoded_wall_count : in_range t_ushort (wall_count m);
  decoded_sprite_count : in_range t_ushort (sprite_count m);
  decoded_sector : holds (sector_count m) (sector m);
  decoded_wall : holds (wall_count m) (wall m);
  decoded_sprite : holds (sprite_count m) (sprite m)
}.

Definition allocates (heap : heap_t) : Prop :=
  sector_mem heap <> None /\ wall_mem heap <> None /\ sprite_mem heap <> None.

(** The end-of-level switch conditions, as the specification lists them. *)
Definition is_nuke_button (s : sprite_t) : Prop :=
  pic s = 142 /\
  (lotag s = 32767 \/ lotag s = 65534 \/ lotag s = 65535 \/ pal s = 14).

Definition lotag_sentinel (s : sprite_t) : Prop :=
  lotag s = 32767 \/ lotag s = 65534 \/ lotag s = 65535.

(** The first sprite, in array order, that meets the end-of-level
    conditions. *)
Definition first_match (sprites : list sprite_t) (s : sprite_t) : Prop :=
  exists before after,
    sprites = before ++ s :: after /\
    (forall x, In x before -> ~ is_nuke_button x) /\
    is_nuke_button s.

(** The answer of the first sprite that has one. *)
Fixpoint first_answer (sprites : list sprite_t) : option string :=
  match sprites with
  | [] => None
  | s :: rest =>
      match Mapinfo.nuke_button s with
      | Some answer => Some answer
      | None => first_answer rest
      end
  end.

(** The player-start markers with a given tag, as the specification counts
    them. *)
Definition is_player_start (tag : Z) (s : sprite_t) : bool :=
  (pic s =? 1405) && (lotag s =? tag).

Definition player_starts (tag : Z) (sprites : list sprite_t) : nat :=
  length (filter (is_player_start tag) sprites).

(** The advertised capacity. *)
Definition yes_players (capacity : Z) : string :=
  String.concat "" ["Yes ("; fmt_d capacity; " players)"].

(** What [sector_dump] prints for the sectors it walks through. *)
Definition sector_lines (sectors : list sector_t) : list event :=
  flat_map (fun s => events (Mapinfo.sector_print s)) sectors.

(** Two sprites the classifier cannot tell apart. *)
Definition same_marks (s s' : sprite_t) : Prop :=
  pic s = pic s' /\ lotag s = lotag s' /\ pal s = pal s'.

(** A sprite with its two tags replaced. *)
Definition with_tags (s : sprite_t) (lotag' hitag' : Z) : sprite_t :=
  {| position := position s;
     stat := stat s; pic := pic s; shade := shade s; pal := pal s;
     clipping_distance := clipping_distance s; filler := filler s;
     repeat := repeat s; offset := offset s;
     sector_of := sector_of s; status := status s; angle := angle s;
     owner := owner s; vel := vel s;
     lotag := lotag'; hitag := hitag'; extra := extra s |}.

(** The length a file must have for the counts it declares; [None] when a
    count itself is missing.  Header 22 bytes, sector 40, wall 32,
    sprite 44. *)
Definition u16_at (fp : list byte) (off : nat) : option nat :=
  if (off + 2 <=? length fp)%nat
  then Some (Z.to_nat (le_combine (firstn 2 (skipn off fp))))
  else None.

Definition declared_length (fp : list byte) : option nat :=
  match u16_at fp 20 with
  | None => None
  | Some sectors =>
      let walls_at := (22 + 40 * sectors)%nat in
      match u16_at fp walls_at with
      | None => None
      | Some walls =>
          let sprites_at := (walls_at + 2 + 32 * walls)%nat in
          match u16_at fp sprites_at with
          | None => None
          | Some sprites => Some (sprites_at + 2 + 44 * sprites)%nat
          end
      end
  end.

(** The stream ends before what it declares has been supplied. *)
Definition truncated (fp : list byte) : bool :=
  match declared_length fp with
  | None => true
  | Some n => (length fp <? n)%nat
  end.

(** What [main] prints for the [i]-th argument when its file opens. *)
Definition report (w : world) (i : nat) (path : string) : list event :=
  match file_content w path with
  | Some fp =>
      events (Mapinfo.map_print
                (fst (Mapinfo.map_read_stream (allocations w i) map_zero fp))
                path)
  | None => []
  end.

Fixpoint reports (w : world) (i : nat) (paths : list string) : list event :=
  match paths with
  | [] => []
  | path :: rest => report w i path ++ reports w (S i) rest
  end.

(** A file that [main] gets through. *)
Definition readable (w : world) (path : string) : Prop :=
  file_content w path <> None /\ fclose_fails w path = false.

(** ** Notions for the properties of the decoder and the reports *)

(** A reader that takes exactly [n] bytes off the stream, or all that is
    left of it. *)
Definition consumes {A} (n : nat) (c : reader A) : Prop :=
  forall fp, snd (c fp) = skipn n fp.

(** A record reader whose result does not depend on what the record held
    before, once the stream has [n] bytes for it. *)
Definition overwrites {A} (n : nat) (read : A -> reader A) : Prop :=
  forall x y fp, (n <= length fp)%nat -> read x fp = read y fp.

(** The signed reading of the two tags of a sprite. *)
Definition retag (s : sprite_t) : sprite_t :=
  with_tags s (to_signed 16 (lotag s)) (to_signed 16 (hitag s)).

(** A map with another sprite array. *)
Definition with_sprites (m : map_t) (sprites : option (list sprite_t)) : map_t :=
  {| version := version m; player := player m;
     sector_start := sector_start m;
     sector_count := sector_count m; sector := sector m;
     wall_count := wall_count m; wall := wall m;
     sprite_count := sprite_count m; sprite := sprites |}.

(** A sector with another [extra]. *)
Definition with_sector_extra (s : sector_t) (extra' : Z) : sector_t :=
  {| wall_ptr := wall_ptr s; sector_wall_count := sector_wall_count s;
     ceilling := ceilling s; floor := floor s;
     visibility := visibility s; sector_filler := sector_filler s;
     sector_lotag := sector_lotag s; sector_hitag := sector_hitag s;
     sector_extra := extra' |}.

(** The pieces of a ceiling or floor in a sector line. *)
Definition plane_pieces (p : ceilling_floor_t) : list string :=
  ["(shade: "; fmt_d (cf_shade p); ", height: "; fmt_d (cf_height p);
   ", pic: "; fmt_d (cf_pic p); ", slope: "; fmt_d (cf_slope p);
   ", stat: "; fmt_d (cf_stat p); ", palette: "; fmt_d (cf_palette p);
   ", panning: ("; fmt_d (v2u8_x (cf_panning p)); ", ";
   fmt_d (v2u8_y (cf_panning p)); "))"].

(** The line a sector is printed as: each of the last four labels is
    followed by the field before the one it names, and [extra] is absent. *)
Definition sector_line (s : sector_t) : string :=
  String.concat ""
    (["[sector] wall_ptr: "; fmt_d (wall_ptr s);
      ", wall_count: "; fmt_d (sector_wall_count s); ", ceilling "]
     ++ plane_pieces (ceilling s)
     ++ [", floor "]
     ++ plane_pieces (floor s)
     ++ [", filler: "; fmt_d (visibility s);
         ", lotag: "; fmt_d (sector_filler s);
         ", hitag: "; fmt_d (sector_lotag s);
         ", extra: "; fmt_d (sector_hitag s); LF]).

(** The answer for a player-start tag. *)
Definition capacity_text (tag : Z) (sprites : list sprite_t) : string :=
  if Z.of_nat (player_starts tag sprites) =? 0 then Mapinfo.no
  else yes_players (Z.of_nat (player_starts tag sprites) + 1).

Definition single_player_text (sprites : list sprite_t) : string :=
  match first_answer sprites with
  | Some answer => answer
  | None => Mapinfo.no
  end.

(** The report of the classifying dumper for a map, line by line. *)
Definition report_lines (m : map_t) (path : string) : list event :=
  [Stdout (String.concat "" ["Filename: "; path; LF]);
   Stdout (String.concat "" ["MAP version: "; fmt_d (version m); LF])]
  ++ match first_answer (elements (sprite m)) with
     | Some _ => []
     | None => map (fun s => Stdout (sector_line s)) (elements (sector m))
     end
  ++ [Stdout (String.concat ""
                ["Single Player: "; single_player_text (elements (sprite m)); LF]);
      Stdout (String.concat ""
                ["Cooperative 2-8 Player: "; capacity_text 1 (elements (sprite m)); LF]);
      Stdout (String.concat ""
                ["DukeMatch 2-8 Player: "; capacity_text 0 (elements (sprite m)); LF]);
      Stdout (String.concat "" ["Atomic Edition Required: "; LF]);
      Stdout (String.concat "" ["New Art: "; LF]);
      Stdout (String.concat ""
                ["Vanilla DUKE3D.EXE compatible: "; Mapinfo.is_vanilla_compatible m;
                 " ("; fmt_d (sector_count m); " sectors, ";
                 fmt_d (wall_count m); " walls, ";
                 fmt_d (sprite_count m); " sprites)"; LF; LF])].

(** What the summary dumper prints for the [i]-th argument when its file
    opens. *)
Definition summary_line (w : world) (i : nat) (path : string) : list event :=
  match file_content w path with
  | Some fp =>
      events (MapinfoSummary.map_print
                (fst (MapinfoSummary.map_read_stream (allocations w i) map_zero fp))
                path)
  | None => []
  end.

Fixpoint summary_lines (w : world) (i : nat) (paths : list string) : list event :=
  match paths with
  | [] => []
  | path :: rest => summary_line w i path ++ summary_lines w (S i) rest
  end.

(** The statuses [main] can end with once it has a file to read. *)
Definition batch_outcome (r : outcome Z) : Prop :=
  r = Returned EXIT_SUCCESS \/ r = Exited error_fopen \/ r = Exited error_fclose.

(** A complete file with one sprite: the cut file and the record it
    announces. *)
Definition switch_map_file : list byte := cut_map_file ++ switch_record.

(** An allocator that fails for the sprite array only. *)
Definition heap_no_sprites : heap_t :=
  {| sector_mem := Some (fun _ => sector_zero);
     wall_mem := Some (fun _ => wall_zero);
     sprite_mem := None |}.

(** A ceiling or floor, and a sector, whose fields are values of their C
    types. *)
Definition plane_in_range (p : ceilling_floor_t) : Prop :=
  in_range t_schar (cf_shade p) /\ in_range t_int (cf_height p)
  /\ in_range t_short (cf_pic p) /\ in_range t_short (cf_slope p)
  /\ in_range t_short (cf_stat p) /\ in_range t_uchar (cf_palette p)
  /\ in_range t_uchar (v2u8_x (cf_panning p))
  /\ in_range t_uchar (v2u8_y (cf_panning p)).

Definition sector_in_range (s : sector_t) : Prop :=
  in_range t_short (wall_ptr s) /\ in_range t_short (sector_wall_count s)
  /\ plane_in_range (ceilling s) /\ plane_in_range (floor s)
  /\ in_range t_uchar (visibility s) /\ in_range t_uchar (sector_filler s)
  /\ in_range t_short (sector_lotag s) /\ in_range t_short (sector_hitag s)
  /\ in_range t_short (sector_extra s).

(** Whether a batch got through all its files. *)
Definition loop_outcome (w : world) (files : list string) (r : outcome unit)
  : Prop :=
  (r = Returned tt /\ Forall (readable w) files)
  \/ ((r = Exited error_fopen \/ r = Exited error_fclose)
      /\ ~ Forall (readable w) files).

(** Forty zero bytes: one blank sector record. *)
Definition blank_sector_record : list byte := List.repeat x00 40.



(** A run that sees one file. *)
Definition one_file_world (name : string) (content : list byte) (mem : heap_t)
  : world :=
  {| file_content := fun path =>
       if String.eqb path name then Some content else None;
     fclose_fails := fun _ => false;
     allocations := fun _ => mem |}.

(** A computation that returns, whatever it prints. *)
Definition returns {A} (c : proc A) : Prop := exists a, result c = Returned a.

(** ** The process monad *)

Section ProcLaws.

Context {A B : Type}.

Lemma bind_ret (a : A) (k : A -> proc B) : bind (ret a) k = k a.
Proof. unfold bind, ret. destruct (k a); reflexivity. Qed.

Lemma bind_returned (out : list event) (a : A) (k : A -> proc B) :
  bind (out, Returned a) k = (out ++ events (k a), result (k a)).
Proof. unfold bind, events, result. destruct (k a); reflexivity. Qed.

Lemma bind_exited (out : list event) (status : Z) (k : A -> proc B) :
  bind (out, Exited status) k = (out, Exited status).
Proof. reflexivity. Qed.

Lemma bind_fault (out : list event) (k : A -> proc B) :
  bind (out, Fault) k = (out, Fault).
Proof. reflexivity. Qed.

End ProcLaws.

Lemma index_elements {A} (p : option (list A)) (i : nat) (x : A) :
  nth_error (elements p) i = Some x -> index p i = ret x.
Proof.
  destruct p as [a|]; cbn [elements index]; intros H.
  - rewrite H. reflexivity.
  - destruct i; discriminate H.
Qed.

Lemma skipn_nth_error {A} (a : list A) :
  forall i x, nth_error a i = Some x -> skipn i a = x :: skipn (S i) a.
Proof.
  induction a as [|y a IH]; intros [|i] x H; simpl in H; try discriminate.
  - inversion H; reflexivity.
  - apply (IH i x H).
Qed.

Lemma nth_error_in_bounds {A} (a : list A) (i : nat) :
  (i < length a)%nat -> exists x, nth_error a i = Some x.
Proof.
  intros H. destruct (nth_error a i) as [x|] eqn:E.
  - exists x; reflexivity.
  - apply nth_error_None in E. lia.
Qed.

Lemma holds_length {A} (count : Z) (p : option (list A)) :
  holds count p -> Z.to_nat count = length (elements p).
Proof. destruct p; cbn [holds elements length]; intros H; subst; lia. Qed.

Lemma wrap_int_small (z : Z) : 0 <= z < 2 ^ 31 -> wrap_int z = z.
Proof.
  intros H. unfold wrap_int, to_signed.
  change (2 ^ 31) with 2147483648 in H.
  change (2 ^ 32) with 4294967296.
  change (2 ^ (32 - 1)) with 2147483648.
  rewrite Z.mod_small by lia.
  destruct (z <? 2147483648) eqn:E; [reflexivity|].
  apply Z.ltb_ge in E. lia.
Qed.

(** ** The loops of the classifier *)

Section Loops.

Variable m : map_t.

Lemma nuke_button_scan_spec :
  forall n i, (i + n = length (elements (sprite m)))%nat ->
    Mapinfo.nuke_button_scan m n i
    = ret (first_answer (skipn i (elements (sprite m)))).
Proof.
  induction n as [|n IH]; intros i Hlen.
  - rewrite skipn_all2 by lia. reflexivity.
  - destruct (nth_error_in_bounds (elements (sprite m)) i ltac:(lia))
      as [s Hs].
    cbn [Mapinfo.nuke_button_scan].
    rewrite (index_elements _ _ _ Hs), bind_ret.
    rewrite (skipn_nth_error _ _ _ Hs). cbn [first_answer].
    destruct (Mapinfo.nuke_button s); [reflexivity|].
    apply IH. lia.
Qed.

Lemma count_player_starts_spec (tag : Z) :
  forall n i acc, (i + n = length (elements (sprite m)))%nat ->
    0 <= acc -> acc + Z.of_nat n < 2 ^ 31 ->
    Mapinfo.count_player_starts tag m n i acc
    = ret (acc + Z.of_nat (player_starts tag (skipn i (elements (sprite m))))).
Proof.
  induction n as [|n IH]; intros i acc Hlen Hacc Hbound.
  - rewrite skipn_all2 by lia. unfold player_starts.
    cbn [filter length Z.of_nat Mapinfo.count_player_starts].
    rewrite Z.add_0_r. reflexivity.
  - destruct (nth_error_in_bounds (elements (sprite m)) i ltac:(lia))
      as [s Hs].
    cbn [Mapinfo.count_player_starts].
    rewrite (index_elements _ _ _ Hs), bind_ret.
    rewrite (skipn_nth_error _ _ _ Hs).
    unfold player_starts. cbn [filter].
    fold (is_player_start tag s).
    destruct (is_player_start tag s).
    + rewrite wrap_int_small by lia.
      rewrite IH by lia.
      cbn [length]. unfold player_starts. f_equal. lia.
    + rewrite IH by lia. reflexivity.
Qed.

Lemma sector_dump_spec :
  forall n i, (i + n = length (elements (sector m)))%nat ->
    Mapinfo.sector_dump m n i
    = (sector_lines (skipn i (elements (sector m))), Returned tt).
Proof.
  induction n as [|n IH]; intros i Hlen.
  - rewrite skipn_all2 by lia. reflexivity.
  - destruct (nth_error_in_bounds (elements (sector m)) i ltac:(lia))
      as [s Hs].
    cbn [Mapinfo.sector_dump].
    rewrite (index_elements _ _ _ Hs), bind_ret.
    rewrite (skipn_nth_error _ _ _ Hs).
    rewrite (IH (S i)) by lia.
    reflexivity.
Qed.

End Loops.

(** ** Scalars read from a stream *)

Lemma byte_to_Z_range (b : byte) : 0 <= byte_to_Z b < 256.
Proof. destruct b; vm_compute; split; congruence. Qed.

Lemma byte_to_of_Z (z : Z) : byte_to_Z (byte_of_Z z) = z mod 256.
Proof.
  unfold byte_to_Z, byte_of_Z.
  pose proof (Z.mod_pos_bound z 256 ltac:(lia)) as Hz.
  destruct (Byte.of_N (Z.to_N (z mod 256))) as [b|] eqn:E.
  - apply Byte.to_of_N in E. rewrite E. lia.
  - apply Byte.of_N_None_iff in E. lia.
Qed.

Lemma le_combine_bound (bs : list byte) :
  forall n, (length bs <= n)%nat -> 0 <= le_combine bs < 256 ^ Z.of_nat n.
Proof.
  induction bs as [|b bs IH]; intros n Hn; cbn [le_combine].
  - split; [lia | apply Z.pow_pos_nonneg; lia].
  - destruct n as [|n]; [simpl in Hn; lia|].
    rewrite Nat2Z.inj_succ, Z.pow_succ_r by lia.
    pose proof (byte_to_Z_range b).
    pose proof (IH n ltac:(simpl in Hn; lia)).
    nia.
Qed.

Lemma le_combine_split (n : nat) :
  forall z, le_combine (le_split n z) = z mod 256 ^ Z.of_nat n.
Proof.
  induction n as [|n IH]; intros z; cbn [le_split le_combine].
  - rewrite Z.mod_1_r. reflexivity.
  - rewrite IH, byte_to_of_Z, Nat2Z.inj_succ, Z.pow_succ_r by lia.
    rewrite Z.rem_mul_r by (try apply Z.pow_nonzero; lia).
    reflexivity.
Qed.

Lemma le_split_length (n : nat) : forall z, length (le_split n z) = n.
Proof. induction n; intros z; cbn [le_split length]; auto. Qed.

Lemma load_in_range (t : ctype) (bs : list byte) : in_range t (load t bs).
Proof.
  pose proof (le_combine_bound (firstn (sizeof t) bs) (sizeof t)
                (firstn_le_length _ _)) as H.
  unfold in_range, min_value, max_value, load, to_signed, bits.
  destruct t; cbn [is_signed sizeof] in *;
    repeat match goal with
           | |- context [if ?c then _ else _] => destruct c eqn:?
           end;
    rewrite ?Z.ltb_lt, ?Z.ltb_ge in *;
    cbn in *; lia.
Qed.

(** An object keeps the value stored in it. *)
Lemma load_store (t : ctype) (v : Z) : in_range t v -> load t (store t v) = v.
Proof.
  unfold load, store. intros H.
  rewrite firstn_all2 by (rewrite le_split_length; lia).
  rewrite le_combine_split.
  unfold in_range, min_value, max_value, to_signed, bits in *.
  destruct t; cbn [is_signed sizeof] in *; cbn in H |- *;
    try (rewrite Z.mod_small by lia; reflexivity).
  - destruct (Z_lt_dec v 0).
    + replace (v mod 256) with (v + 256)
        by (apply (Z.mod_unique _ _ (-1)); lia).
      destruct (Z.ltb_spec (v + 256) 128); lia.
    + rewrite Z.mod_small by lia. destruct (Z.ltb_spec v 128); lia.
  - destruct (Z_lt_dec v 0).
    + replace (v mod 65536) with (v + 65536)
        by (apply (Z.mod_unique _ _ (-1)); lia).
      destruct (Z.ltb_spec (v + 65536) 32768); lia.
    + rewrite Z.mod_small by lia. destruct (Z.ltb_spec v 32768); lia.
  - destruct (Z_lt_dec v 0).
    + replace (v mod 4294967296) with (v + 4294967296)
        by (apply (Z.mod_unique _ _ (-1)); lia).
      destruct (Z.ltb_spec (v + 4294967296) 2147483648); lia.
    + rewrite Z.mod_small by lia. destruct (Z.ltb_spec v 2147483648); lia.
Qed.

Lemma fread_result (t : ctype) (old : Z) (fp : FILE) :
  fread t old fp
  = (load t (firstn (sizeof t) fp
             ++ skipn (length (firstn (sizeof t) fp)) (store t old)),
     skipn (sizeof t) fp).
Proof. reflexivity. Qed.

Lemma fread_in_range (t : ctype) (old : Z) (fp : FILE) :
  in_range t (fst (fread t old fp)).
Proof. rewrite fread_result. apply load_in_range. Qed.

(** At the end of the stream [fread] leaves the object as it was. *)
Lemma fread_at_end (t : ctype) (old : Z) :
  in_range t old -> fread t old [] = (old, []).
Proof.
  intros H. rewrite fread_result.
  rewrite firstn_nil, skipn_nil. cbn [length app skipn].
  rewrite (load_store t old H). reflexivity.
Qed.

(** With the whole object in the stream its previous value is lost. *)
Lemma fread_supplied (t : ctype) (old : Z) (fp : FILE) :
  (sizeof t <= length fp)%nat ->
  fread t old fp = (load t fp, skipn (sizeof t) fp).
Proof.
  intros H. rewrite fread_result. f_equal.
  rewrite length_firstn, Nat.min_l by exact H.
  rewrite skipn_all2 by (unfold store; rewrite le_split_length; lia).
  rewrite List.app_nil_r. unfold load. rewrite firstn_firstn, Nat.min_id.
  reflexivity.
Qed.

(** ** The arrays the decoder builds *)

Lemma read_array_length {A} (read : A -> reader A) (a : list A) :
  forall fp, length (fst (read_array read a fp)) = length a.
Proof.
  induction a as [|x a IH]; intros fp; cbn [read_array]; [reflexivity|].
  unfold rbind, rret.
  destruct (read x fp) as [x' fp1].
  specialize (IH fp1).
  destruct (read_array read a fp1) as [a' fp2].
  cbn in *. congruence.
Qed.

Lemma malloc_holds {A} (mem : option (nat -> A)) (count : Z) :
  mem <> None -> 0 <= count -> holds count (malloc mem count).
Proof.
  intros Hmem Hcount. destruct mem as [junk|]; [|congruence].
  cbn [malloc holds]. rewrite length_map, length_seq. lia.
Qed.

Lemma read_elements_holds {A} (read : A -> reader A) (count : Z)
      (p : option (list A)) (fp : FILE) :
  holds count p -> holds count (fst (read_elements read p fp)).
Proof.
  destruct p as [a|]; cbn [read_elements holds]; intros H; [|exact H].
  unfold rbind, rret.
  pose proof (read_array_length read a fp) as Hlen.
  destruct (read_array read a fp) as [a' fp']. cbn in *. congruence.
Qed.

Lemma ushort_nonneg (v : Z) : in_range t_ushort v -> 0 <= v.
Proof. unfold in_range, min_value. cbn. lia. Qed.

Ltac name_fread :=
  match goal with
  | |- context [fread ?t ?old ?fp] =>
      let H := fresh "Hrange" in
      pose proof (fread_in_range t old fp) as H;
      destruct (fread t old fp); cbn [fst] in H
  end.

Ltac name_elements :=
  match goal with
  | |- context [read_elements ?read (malloc ?mem ?count) ?fp] =>
      let H := fresh "Harray" in
      pose proof (fun Hm Hc =>
                    read_elements_holds read count _ fp
                      (malloc_holds mem count Hm Hc)) as H;
      destruct (read_elements read (malloc mem count) fp); cbn [fst] in H
  end.

(** Whatever the stream holds, a map read with successful allocations has
    arrays of the declared sizes. *)
Lemma map_read_stream_decoded (tag_t : ctype) (heap : heap_t) (m : map_t)
      (fp : FILE) :
  allocates heap -> decoded (fst (map_read_stream_as tag_t heap m fp)).
Proof.
  intros (Hs & Hw & Hp).
  unfold map_read_stream_as, rbind, rret.
  repeat first [name_fread | name_elements].
  cbn [fst].
  constructor; cbn; auto using ushort_nonneg.
Qed.

Section MapRead.

Variables (tag_t : ctype) (w : world) (heap : heap_t) (m : map_t).
Variable path : string.

Lemma map_read_returns (fp : FILE) :
  file_content w path = Some fp -> fclose_fails w path = false ->
  map_read_as tag_t w heap m path
  = ret (fst (map_read_stream_as tag_t heap m fp)).
Proof.
  intros Hopen Hclose. unfold map_read_as, safe_fopen, safe_fclose.
  rewrite Hopen, Hclose. reflexivity.
Qed.

Lemma map_read_unopenable :
  file_content w path = None ->
  map_read_as tag_t w heap m path = ([Perror "fopen"], Exited error_fopen).
Proof.
  intros Hopen. unfold map_read_as, safe_fopen. rewrite Hopen. reflexivity.
Qed.

Lemma map_read_unclosable (fp : FILE) :
  file_content w path = Some fp -> fclose_fails w path = true ->
  map_read_as tag_t w heap m path = ([Perror "fclose"], Exited error_fclose).
Proof.
  intros Hopen Hclose. unfold map_read_as, safe_fopen, safe_fclose.
  rewrite Hopen, Hclose. reflexivity.
Qed.

End MapRead.

(** ** Engine limits *)

(** C1. The verdict of [is_vanilla_compatible] is "Yes" exactly when the
    map has at most 1024 sectors, 8192 walls and 4096 sprites, and "No"
    otherwise; each of the three limits is itself compatible and one more
    than each is not. *)
Theorem vanilla_compatible_iff_limits (m : map_t) :
  (Mapinfo.is_vanilla_compatible m = "Yes" <->
   sector_count m <= 1024 /\ wall_count m <= 8192 /\ sprite_count m <= 4096)
  /\ (Mapinfo.is_vanilla_compatible m = "No" <->
      ~ (sector_count m <= 1024 /\ wall_count m <= 8192 /\ sprite_count m <= 4096))
  /\ Mapinfo.is_vanilla_compatible (counts_only 1024 8192 4096) = "Yes"
  /\ Mapinfo.is_vanilla_compatible (counts_only 1025 8192 4096) = "No"
  /\ Mapinfo.is_vanilla_compatible (counts_only 1024 8193 4096) = "No"
  /\ Mapinfo.is_vanilla_compatible (counts_only 1024 8192 4097) = "No".
Proof.
  assert (Hlimits : forall x,
             Mapinfo.is_vanilla_compatible x = "Yes" <->
             sector_count x <= 1024 /\ wall_count x <= 8192 /\ sprite_count x <= 4096).
  { intros x. unfold Mapinfo.is_vanilla_compatible.
    rewrite <- !Z.leb_le.
    destruct (sector_count x <=? 1024), (wall_count x <=? 8192),
      (sprite_count x <=? 4096); cbn [andb];
      split; intros H; try discriminate; try tauto;
      destruct H as (? & ? & ?); discriminate. }
  assert (Hno : forall x,
             Mapinfo.is_vanilla_compatible x = "No" <->
             Mapinfo.is_vanilla_compatible x <> "Yes").
  { intros x. unfold Mapinfo.is_vanilla_compatible.
    destruct (_ && _); split; intros H; try discriminate; congruence. }
  split; [apply Hlimits|].
  split; [rewrite Hno, Hlimits; reflexivity|].
  repeat split; reflexivity.
Qed.

(** ** Single-player presence *)

Lemma answers_distinct :
  NoDup [Mapinfo.no; Mapinfo.yes_unknown; Mapinfo.yes_fry;
         Mapinfo.yes_nuke_button; Mapinfo.yes_secret_exit].
Proof.
  repeat constructor; cbn [In]; intros H;
    repeat destruct H as [H|H]; try contradiction;
    vm_compute in H; discriminate H.
Qed.

Ltac absurd_answer :=
  match goal with
  | H : Some _ = Some _ |- _ => vm_compute in H; discriminate H
  | H : @eq string _ _ |- _ => vm_compute in H; discriminate H
  end.

Ltac split_tests :=
  repeat match goal with
         | |- context [?a =? ?b] =>
             destruct (Z.eqb_spec a b)
         end.

Lemma nuke_button_none (s : sprite_t) :
  Mapinfo.nuke_button s = None <-> ~ is_nuke_button s.
Proof.
  unfold Mapinfo.nuke_button, is_nuke_button.
  split_tests; split; intros H; try discriminate; try reflexivity;
    try (intros (? & [?|[?|[?|?]]]); congruence);
    exfalso; apply H; tauto.
Qed.

Lemma nuke_button_unknown (s : sprite_t) :
  Mapinfo.nuke_button s = Some Mapinfo.yes_unknown <->
  pic s = 142 /\ lotag s = 32767.
Proof.
  unfold Mapinfo.nuke_button.
  split_tests; split; intros H; try discriminate; try tauto;
    try absurd_answer; lia.
Qed.

Lemma nuke_button_fry (s : sprite_t) :
  Mapinfo.nuke_button s = Some Mapinfo.yes_fry <->
  pic s = 142 /\ lotag s = 65534.
Proof.
  unfold Mapinfo.nuke_button.
  split_tests; split; intros H; try discriminate; try tauto;
    try absurd_answer; lia.
Qed.

Lemma nuke_button_normal (s : sprite_t) :
  Mapinfo.nuke_button s = Some Mapinfo.yes_nuke_button <->
  pic s = 142 /\ lotag s = 65535.
Proof.
  unfold Mapinfo.nuke_button.
  split_tests; split; intros H; try discriminate; try tauto;
    try absurd_answer; lia.
Qed.

Lemma nuke_button_secret (s : sprite_t) :
  Mapinfo.nuke_button s = Some Mapinfo.yes_secret_exit <->
  pic s = 142 /\ pal s = 14 /\ ~ lotag_sentinel s.
Proof.
  unfold Mapinfo.nuke_button, lotag_sentinel.
  split_tests; split; intros H; try discriminate; try tauto;
    try absurd_answer; try lia; tauto.
Qed.

Lemma nuke_button_never_no (s : sprite_t) :
  Mapinfo.nuke_button s <> Some Mapinfo.no.
Proof.
  unfold Mapinfo.nuke_button.
  split_tests; intros H; try discriminate; absurd_answer.
Qed.

Lemma nuke_button_some (s : sprite_t) (answer : string) :
  Mapinfo.nuke_button s = Some answer -> is_nuke_button s.
Proof.
  unfold Mapinfo.nuke_button, is_nuke_button.
  split_tests; intros H; try discriminate; tauto.
Qed.

Lemma first_answer_app (before rest : list sprite_t) :
  (forall x, In x before -> ~ is_nuke_button x) ->
  first_answer (before ++ rest) = first_answer rest.
Proof.
  induction before as [|x before IH]; intros H; [reflexivity|].
  cbn [app first_answer].
  rewrite (proj2 (nuke_button_none x) (H x (or_introl eq_refl))).
  apply IH. intros y Hy. apply H. right. exact Hy.
Qed.

Lemma first_answer_none (sprites : list sprite_t) :
  first_answer sprites = None <->
  forall s, In s sprites -> ~ is_nuke_button s.
Proof.
  induction sprites as [|x l IH]; cbn [first_answer In].
  - split; [intros _ s [] | reflexivity].
  - destruct (Mapinfo.nuke_button x) eqn:E.
    + split; [discriminate|]. intros H. exfalso.
      apply (H x (or_introl eq_refl)). eapply nuke_button_some, E.
    + rewrite IH. apply nuke_button_none in E.
      split; [intros H s [<-|Hs]; auto | intros H s Hs; auto].
Qed.

Lemma first_answer_some (sprites : list sprite_t) (answer : string) :
  first_answer sprites = Some answer <->
  exists s, first_match sprites s /\ Mapinfo.nuke_button s = Some answer.
Proof.
  split.
  - induction sprites as [|x l IH]; cbn [first_answer]; [discriminate|].
    destruct (Mapinfo.nuke_button x) eqn:E.
    + intros [= <-]. exists x. split; [|exact E].
      exists [], l. repeat split; [intros ? [] | eapply nuke_button_some, E
                                   | eapply nuke_button_some, E].
    + intros H. destruct (IH H) as (s & (before & after & -> & Hb & Hs) & Ha).
      exists s. split; [|exact Ha].
      exists (x :: before), after. split; [reflexivity|]. split; [|exact Hs].
      intros y [<-|Hy]; [apply nuke_button_none, E | apply Hb, Hy].
  - intros (s & (before & after & -> & Hb & _) & Ha).
    rewrite first_answer_app by exact Hb.
    cbn [first_answer]. rewrite Ha. reflexivity.
Qed.

(** [is_single_player] on a decoded map, in closed form. *)
Lemma is_single_player_spec (m : map_t) :
  decoded m ->
  Mapinfo.is_single_player m
  = match first_answer (elements (sprite m)) with
    | Some answer => ret answer
    | None => (sector_lines (elements (sector m)), Returned Mapinfo.no)
    end.
Proof.
  intros Hm. unfold Mapinfo.is_single_player.
  rewrite (nuke_button_scan_spec m _ 0)
    by (rewrite (holds_length _ _ (decoded_sprite m Hm)); reflexivity).
  rewrite bind_ret. cbn [skipn].
  destruct (first_answer (elements (sprite m))); [reflexivity|].
  rewrite (sector_dump_spec m _ 0)
    by (rewrite (holds_length _ _ (decoded_sector m Hm)); reflexivity).
  cbn [skipn]. rewrite bind_returned. cbn. rewrite List.app_nil_r. reflexivity.
Qed.

Lemma is_single_player_result (m : map_t) :
  decoded m ->
  result (Mapinfo.is_single_player m)
  = Returned match first_answer (elements (sprite m)) with
             | Some answer => answer
             | None => Mapinfo.no
             end.
Proof.
  intros Hm. rewrite (is_single_player_spec m Hm).
  destruct (first_answer (elements (sprite m))); reflexivity.
Qed.

(** C2. On a decoded map [is_single_player] returns an answer; the answer
    differs from "No" exactly when some sprite has picture 142 and a lotag
    among 32767, 65534, 65535 or palette 14; each of the four "Yes" answers
    names the condition met by the first such sprite, the four are pairwise
    different, and when no sprite with picture 142 meets any of the four
    conditions the answer is "No". *)
Theorem single_player_presence (m : map_t) :
  decoded m ->
  let sprites := elements (sprite m) in
  exists answer,
    result (Mapinfo.is_single_player m) = Returned answer
    /\ (answer <> Mapinfo.no <-> exists s, In s sprites /\ is_nuke_button s)
    /\ (answer = Mapinfo.yes_unknown <->
        exists s, first_match sprites s /\ lotag s = 32767)
    /\ (answer = Mapinfo.yes_fry <->
        exists s, first_match sprites s /\ lotag s = 65534)
    /\ (answer = Mapinfo.yes_nuke_button <->
        exists s, first_match sprites s /\ lotag s = 65535)
    /\ (answer = Mapinfo.yes_secret_exit <->
        exists s, first_match sprites s /\ pal s = 14 /\ ~ lotag_sentinel s)
    /\ NoDup [Mapinfo.no; Mapinfo.yes_unknown; Mapinfo.yes_fry;
              Mapinfo.yes_nuke_button; Mapinfo.yes_secret_exit]
    /\ ((forall s, In s sprites -> pic s = 142 ->
                   ~ lotag_sentinel s /\ pal s <> 14) ->
        answer = Mapinfo.no).
Proof.
  intros Hm sprites.
  rewrite (is_single_player_result m Hm). fold sprites.
  destruct (first_answer sprites) as [answer|] eqn:E.
  - exists answer. split; [reflexivity|].
    assert (Hsome := E). apply first_answer_some in Hsome.
    destruct Hsome as (s & Hfirst & Hs).
    assert (Hwhich : forall a cond,
               (Mapinfo.nuke_button s = Some a <-> pic s = 142 /\ cond s) ->
               (forall s', Mapinfo.nuke_button s' = Some a <-> pic s' = 142 /\ cond s') ->
               answer = a <-> exists s', first_match sprites s' /\ cond s').
    { intros a cond Hthis Hall. split.
      - intros ->. exists s. split; [exact Hfirst | apply Hthis, Hs].
      - intros (s' & Hfirst' & Hcond).
        assert (first_answer sprites = Some a) as Ha.
        { apply first_answer_some. exists s'. split; [exact Hfirst'|].
          apply Hall. split; [|exact Hcond].
          destruct Hfirst' as (_ & _ & _ & _ & Hpic & _). exact Hpic. }
        congruence. }
    split.
    { split.
      - intros _. exists s. destruct Hfirst as (before & after & -> & _ & Hnb).
        split; [apply in_elt | exact Hnb].
      - intros _ ->. apply (nuke_button_never_no s Hs). }
    split; [apply (Hwhich _ (fun x => lotag x = 32767));
            auto using nuke_button_unknown|].
    split; [apply (Hwhich _ (fun x => lotag x = 65534));
            auto using nuke_button_fry|].
    split; [apply (Hwhich _ (fun x => lotag x = 65535));
            auto using nuke_button_normal|].
    split; [apply (Hwhich _ (fun x => pal x = 14 /\ ~ lotag_sentinel x));
            auto using nuke_button_secret|].
    split; [apply answers_distinct|].
    intros Hnone. exfalso.
    destruct Hfirst as (before & after & -> & _ & Hpic & Hcond).
    destruct (Hnone s (in_elt _ _ _) Hpic) as (Hl & Hp).
    unfold lotag_sentinel in Hl. tauto.
  - exists Mapinfo.no. split; [reflexivity|].
    pose proof (proj1 (first_answer_none sprites) E) as Hnone.
    assert (Hnever : forall (P : sprite_t -> Prop),
               ~ exists s', first_match sprites s' /\ P s').
    { intros P (s' & (before & after & -> & _ & Hnb) & _).
      apply (Hnone s' (in_elt _ _ _) Hnb). }
    pose proof answers_distinct as Hd.
    split.
    { split; [congruence|]. intros (s & Hin & Hnb). destruct (Hnone s Hin Hnb). }
    repeat (split;
            [split; [intros Habs; symmetry in Habs; absurd_answer
                    | intros H; destruct (Hnever _ H)]|]).
    split; [exact Hd | reflexivity].
Qed.

(** ** Decimal output of an [int] *)

Lemma double_digits (d : Decimal.uint) :
  (Decimal.nb_digits (Decimal.Little.double d) <= S (Decimal.nb_digits d)
   /\ Decimal.nb_digits (Decimal.Little.succ_double d) <= S (Decimal.nb_digits d))%nat.
Proof.
  induction d; cbn [Decimal.Little.double Decimal.Little.succ_double Decimal.nb_digits];
    try destruct IHd; split; lia.
Qed.

Lemma to_little_uint_digits (p : positive) :
  (Decimal.nb_digits (Pos.to_little_uint p) <= Pos.size_nat p)%nat.
Proof.
  induction p as [p IH|p IH|]; cbn [Pos.to_little_uint Pos.size_nat].
  - pose proof (proj2 (double_digits (Pos.to_little_uint p))). lia.
  - pose proof (proj1 (double_digits (Pos.to_little_uint p))). lia.
  - cbn. lia.
Qed.

Lemma string_of_uint_length (d : Decimal.uint) :
  String.length (NilEmpty.string_of_uint d) = Decimal.nb_digits d.
Proof.
  induction d; cbn [NilEmpty.string_of_uint Decimal.nb_digits String.length];
    congruence.
Qed.

(** A positive [int] prints in at most 32 characters. *)
Lemma fmt_d_length (z : Z) :
  0 < z < 2 ^ 31 -> (String.length (fmt_d z) <= 32)%nat.
Proof.
  intros Hz. destruct z as [|p|p]; try lia.
  unfold fmt_d. cbn [Z.to_int NilZero.string_of_int NilZero.string_of_uint].
  assert (String.length (NilEmpty.string_of_uint (Pos.to_uint p)) <= 32)%nat
    as Hlen.
  { rewrite string_of_uint_length. unfold Pos.to_uint.
    rewrite DecimalFacts.nb_digits_rev.
    pose proof (to_little_uint_digits p).
    pose proof (Pos.size_nat_monotone p (2 ^ 31)%positive ltac:(lia)) as Hs.
    change (Pos.size_nat (2 ^ 31)) with 32%nat in Hs. lia. }
  destruct (Pos.to_uint p); cbn [NilZero.string_of_uint];
    [cbn; lia | exact Hlen ..].
Qed.

Lemma length_append (s1 s2 : string) :
  String.length (String.append s1 s2)
  = (String.length s1 + String.length s2)%nat.
Proof. induction s1; cbn; congruence. Qed.

Lemma substring_whole (s : string) :
  forall n, (String.length s <= n)%nat -> String.substring 0 n s = s.
Proof.
  induction s as [|c s IH]; intros [|n] H; cbn in *; try reflexivity; try lia.
  rewrite IH by lia. reflexivity.
Qed.

(** The 256 bytes of [buffer] are enough for every capacity. *)
Lemma snprintf_capacity (capacity : Z) :
  0 < capacity < 2 ^ 31 ->
  snprintf 256 "Yes (%d players)" [arg_d capacity] = yes_players capacity.
Proof.
  intros H. unfold snprintf.
  change (format "Yes (%d players)" [arg_d capacity])
    with (String.append "Yes (" (String.append (fmt_d capacity) " players)")).
  change (yes_players capacity)
    with (String.append "Yes (" (String.append (fmt_d capacity) " players)")).
  apply substring_whole.
  rewrite !length_append. pose proof (fmt_d_length capacity H).
  cbn [String.length]. lia.
Qed.

Lemma yes_players_not_no (capacity : Z) : yes_players capacity <> Mapinfo.no.
Proof. unfold yes_players. cbn. discriminate. Qed.

Lemma is_player_start_true (tag : Z) (s : sprite_t) :
  is_player_start tag s = true <-> pic s = 1405 /\ lotag s = tag.
Proof.
  unfold is_player_start. rewrite andb_true_iff, !Z.eqb_eq. reflexivity.
Qed.

Lemma player_starts_bound (tag : Z) (sprites : list sprite_t) :
  (player_starts tag sprites <= length sprites)%nat.
Proof. apply filter_length_le. Qed.

(** ** Cooperative and DukeMatch capacity *)

Section Capacity.

Variables (m : map_t) (buffer : string).
Hypothesis Hm : decoded m.

Let sprites : list sprite_t := elements (sprite m).

Lemma decoded_sprites_small : Z.of_nat (length sprites) <= 65535.
Proof.
  pose proof (decoded_sprite_count m Hm) as (Hmin & Hmax).
  pose proof (holds_length _ _ (decoded_sprite m Hm)) as Hlen.
  fold sprites in Hlen.
  change (max_value t_ushort) with 65535 in Hmax.
  change (min_value t_ushort) with 0 in Hmin. lia.
Qed.

Lemma count_player_starts_decoded (tag : Z) :
  Mapinfo.count_player_starts tag m (Z.to_nat (sprite_count m)) 0 0
  = ret (Z.of_nat (player_starts tag sprites)).
Proof.
  pose proof decoded_sprites_small as Hsmall.
  pose proof (holds_length _ _ (decoded_sprite m Hm)) as Hlen.
  rewrite (count_player_starts_spec m tag _ 0 0).
  - reflexivity.
  - rewrite Hlen. reflexivity.
  - lia.
  - rewrite Hlen. fold sprites.
    change (2 ^ 31) with 2147483648. lia.
Qed.

Lemma capacity_answer (count : nat) :
  (count <= length sprites)%nat ->
  (if Z.of_nat count =? 0 then ret (Mapinfo.no, buffer)
   else
     let buffer' :=
       snprintf 256 "Yes (%d players)" [arg_d (wrap_int (Z.of_nat count + 1))] in
     ret (buffer', buffer'))
  = ret (if Z.of_nat count =? 0 then (Mapinfo.no, buffer)
         else (yes_players (Z.of_nat count + 1),
               yes_players (Z.of_nat count + 1))).
Proof.
  intros Hcount. pose proof decoded_sprites_small as Hsmall.
  destruct (Z.of_nat count =? 0); [reflexivity|].
  cbv zeta.
  rewrite wrap_int_small by (change (2 ^ 31) with 2147483648; lia).
  rewrite snprintf_capacity by (change (2 ^ 31) with 2147483648; lia).
  reflexivity.
Qed.

Lemma is_coop_spec :
  Mapinfo.is_coop m buffer
  = ret (if Z.of_nat (player_starts 1 sprites) =? 0
         then (Mapinfo.no, buffer)
         else (yes_players (Z.of_nat (player_starts 1 sprites) + 1),
               yes_players (Z.of_nat (player_starts 1 sprites) + 1))).
Proof.
  unfold Mapinfo.is_coop.
  rewrite count_player_starts_decoded, bind_ret.
  apply capacity_answer, player_starts_bound.
Qed.

Lemma is_dukematch_spec :
  Mapinfo.is_dukematch m buffer
  = ret (if Z.of_nat (player_starts 0 sprites) =? 0
         then (Mapinfo.no, buffer)
         else (yes_players (Z.of_nat (player_starts 0 sprites) + 1),
               yes_players (Z.of_nat (player_starts 0 sprites) + 1))).
Proof.
  unfold Mapinfo.is_dukematch.
  rewrite count_player_starts_decoded, bind_ret.
  apply capacity_answer, player_starts_bound.
Qed.

End Capacity.

(** C3. On a decoded map [is_coop] counts the sprites with picture 1405 and
    lotag 1 and [is_dukematch] those with picture 1405 and lotag 0; each
    answers something other than "No" exactly when its count is positive,
    the answer then advertises [count + 1] players, and a count of zero
    gives "No", which is no capacity at all. *)
Theorem player_start_capacity (m : map_t) (buffer : string) :
  decoded m ->
  let sprites := elements (sprite m) in
  let coop := Z.of_nat (player_starts 1 sprites) in
  let dukematch := Z.of_nat (player_starts 0 sprites) in
  exists coop_answer coop_buffer dukematch_answer dukematch_buffer,
    Mapinfo.is_coop m buffer = ret (coop_answer, coop_buffer)
    /\ Mapinfo.is_dukematch m buffer = ret (dukematch_answer, dukematch_buffer)
    /\ (coop_answer <> Mapinfo.no <-> 0 < coop)
    /\ (0 < coop -> coop_answer = yes_players (coop + 1))
    /\ (coop = 0 -> coop_answer = Mapinfo.no)
    /\ (dukematch_answer <> Mapinfo.no <-> 0 < dukematch)
    /\ (0 < dukematch -> dukematch_answer = yes_players (dukematch + 1))
    /\ (dukematch = 0 -> dukematch_answer = Mapinfo.no)
    /\ (forall tag s, is_player_start tag s = true <-> pic s = 1405 /\ lotag s = tag)
    /\ (forall capacity, yes_players capacity <> Mapinfo.no).
Proof.
  intros Hm sprites coop dukematch.
  pose proof (is_coop_spec m buffer Hm) as Hcoop.
  pose proof (is_dukematch_spec m buffer Hm) as Hdm.
  fold sprites in Hcoop, Hdm. fold coop in Hcoop. fold dukematch in Hdm.
  assert (0 <= coop) as Hc0 by (unfold coop; lia).
  assert (0 <= dukematch) as Hd0 by (unfold dukematch; lia).
  clearbody coop dukematch.
  pose proof yes_players_not_no as Hyes.
  revert Hcoop Hdm.
  destruct (Z.eqb_spec coop 0) as [Hc|Hc];
    destruct (Z.eqb_spec dukematch 0) as [Hd|Hd];
    intros Hcoop Hdm;
    do 4 eexists;
    (split; [exact Hcoop|]); (split; [exact Hdm|]);
    (split; [split; [try congruence; lia | intros; try apply Hyes; lia]|]);
    (split; [intros; try reflexivity; lia|]);
    (split; [intros; try reflexivity; lia|]);
    (split; [split; [try congruence; lia | intros; try apply Hyes; lia]|]);
    (split; [intros; try reflexivity; lia|]);
    (split; [intros; try reflexivity; lia|]);
    (split; [intros; apply is_player_start_true | exact Hyes]).
Qed.

Lemma player_start_capacity_witness :
  let sprites := [marker 1405 1 0; marker 1405 0 0; marker 1405 1 0; marker 142 1 0] in
  decoded (sprites_only sprites)
  /\ events (Mapinfo.is_coop (sprites_only sprites) "") = []
  /\ exists coop_answer dukematch_answer,
       coop_answer = yes_players 3 /\ dukematch_answer = yes_players 2.
Proof.
  intros sprites.
  assert (decoded (sprites_only sprites)) as Hm.
  { constructor; cbn; unfold in_range; cbn; lia. }
  split; [exact Hm|].
  destruct (player_start_capacity (sprites_only sprites) "" Hm)
    as (c & cb & d & db & Hc & Hd & _ & Hcoop & _ & _ & Hduke & _).
  split; [rewrite Hc; reflexivity|].
  exists c, d. split; [apply Hcoop | apply Hduke]; cbn; lia.
Defined.

Lemma single_player_presence_witness :
  let sprites := [marker 142 5 3; marker 1405 65535 14; marker 142 9 14;
                  marker 142 32767 0] in
  decoded (sprites_only sprites)
  /\ exists answer,
       result (Mapinfo.is_single_player (sprites_only sprites)) = Returned answer
       /\ (answer = Mapinfo.yes_secret_exit <->
           exists s, first_match sprites s /\ pal s = 14 /\ ~ lotag_sentinel s).
Proof.
  intros sprites.
  assert (decoded (sprites_only sprites)) as Hm.
  { constructor; cbn; unfold in_range; cbn; lia. }
  split; [exact Hm|].
  destruct (single_player_presence (sprites_only sprites) Hm)
    as (answer & Hres & _ & _ & _ & _ & Hsecret & _).
  exists answer. split; [exact Hres | exact Hsecret].
Defined.

(** ** Order of the tests on one switch *)

(** C10. For a sprite with picture 142 the lotag tests come first: when its
    lotag is 32767, 65534 or 65535 the sprite is reported under that lotag,
    whatever its palette (14 included), and never as the secret exit; on a
    decoded map where it is the first end-of-level switch that report is
    the answer of [is_single_player]. *)
Theorem lotag_tests_before_palette (m : map_t) (before after : list sprite_t)
        (s : sprite_t) :
  decoded m -> elements (sprite m) = before ++ s :: after ->
  (forall x, In x before -> ~ is_nuke_button x) ->
  pic s = 142 -> lotag_sentinel s ->
  Mapinfo.nuke_button s <> Some Mapinfo.yes_secret_exit
  /\ result (Mapinfo.is_single_player m) = match Mapinfo.nuke_button s with
                                           | Some answer => Returned answer
                                           | None => Fault
                                           end
  /\ result (Mapinfo.is_single_player m) <> Returned Mapinfo.yes_secret_exit
  /\ (lotag s = 32767 -> Mapinfo.nuke_button s = Some Mapinfo.yes_unknown)
  /\ (lotag s = 65534 -> Mapinfo.nuke_button s = Some Mapinfo.yes_fry)
  /\ (lotag s = 65535 -> Mapinfo.nuke_button s = Some Mapinfo.yes_nuke_button).
Proof.
  intros Hm Hsprites Hbefore Hpic Hlotag.
  assert (Mapinfo.nuke_button s <> Some Mapinfo.yes_secret_exit) as Hnot.
  { intros H. apply nuke_button_secret in H. tauto. }
  assert (exists answer, Mapinfo.nuke_button s = Some answer) as (answer & Ha).
  { destruct (Mapinfo.nuke_button s) eqn:E; [eexists; reflexivity|].
    apply nuke_button_none in E. exfalso. apply E. split; [exact Hpic|].
    unfold lotag_sentinel in Hlotag. tauto. }
  assert (result (Mapinfo.is_single_player m) = Returned answer) as Hres.
  { rewrite (is_single_player_result m Hm), Hsprites.
    rewrite first_answer_app by exact Hbefore.
    cbn [first_answer]. rewrite Ha. reflexivity. }
  split; [exact Hnot|].
  split; [rewrite Ha; exact Hres|].
  split; [rewrite Hres; congruence|].
  repeat split; intros H;
    [apply nuke_button_unknown | apply nuke_button_fry | apply nuke_button_normal];
    tauto.
Qed.

Lemma lotag_tests_before_palette_witness :
  let s := marker 142 65534 14 in
  let sprites := [marker 142 7 0; marker 1405 65535 14] ++ s :: [marker 142 0 14] in
  decoded (sprites_only sprites)
  /\ pal s = 14
  /\ result (Mapinfo.is_single_player (sprites_only sprites))
     = Returned Mapinfo.yes_fry.
Proof.
  intros s sprites.
  assert (decoded (sprites_only sprites)) as Hm.
  { constructor; cbn; unfold in_range; cbn; lia. }
  split; [exact Hm|]. split; [reflexivity|].
  assert (forall x, In x [marker 142 7 0; marker 1405 65535 14] ->
                    ~ is_nuke_button x) as Hbefore.
  { intros x [<-|[<-|[]]]; unfold is_nuke_button; cbn; lia. }
  assert (lotag_sentinel s) as Hlotag.
  { unfold lotag_sentinel; cbn; lia. }
  destruct (lotag_tests_before_palette (sprites_only sprites)
              [marker 142 7 0; marker 1405 65535 14] [marker 142 0 14] s
              Hm eq_refl Hbefore eq_refl Hlotag) as (_ & H & _).
  exact H.
Defined.

(** ** Bounds of the array accesses *)

Lemma same_marks_nuke_button (s s' : sprite_t) :
  same_marks s s' -> Mapinfo.nuke_button s = Mapinfo.nuke_button s'.
Proof.
  intros (Hpic & Hlotag & Hpal). unfold Mapinfo.nuke_button.
  rewrite Hpic, Hlotag, Hpal. reflexivity.
Qed.

Lemma same_marks_player_start (tag : Z) (s s' : sprite_t) :
  same_marks s s' -> is_player_start tag s = is_player_start tag s'.
Proof.
  intros (Hpic & Hlotag & _). unfold is_player_start.
  rewrite Hpic, Hlotag. reflexivity.
Qed.

Lemma same_marks_first_answer (l l' : list sprite_t) :
  Forall2 same_marks l l' -> first_answer l = first_answer l'.
Proof.
  induction 1 as [|s s' l l' Hs _ IH]; [reflexivity|].
  cbn [first_answer]. rewrite (same_marks_nuke_button s s' Hs), IH.
  reflexivity.
Qed.

Lemma same_marks_player_starts (tag : Z) (l l' : list sprite_t) :
  Forall2 same_marks l l' -> player_starts tag l = player_starts tag l'.
Proof.
  unfold player_starts.
  induction 1 as [|s s' l l' Hs _ IH]; [reflexivity|].
  cbn [filter]. rewrite (same_marks_player_start tag s s' Hs).
  destruct (is_player_start tag s'); cbn [length]; congruence.
Qed.

(** X13. On every map whose arrays hold as many elements as its counts
    say (what [map_read] builds whenever [malloc] succeeds, for cut files
    too), whatever its index fields hold, the three scans of the classifier
    return without an access outside the sector, wall or sprite array;
    index fields are never used as subscripts, so two such maps whose
    sprites agree on picture, lotag and palette get the same answers however
    their other fields differ. *)
Theorem classifier_stays_in_bounds (m m' : map_t) (buffer : string) :
  decoded m -> decoded m' ->
  Forall2 same_marks (elements (sprite m)) (elements (sprite m')) ->
  (exists answer,
      result (Mapinfo.is_single_player m) = Returned answer
      /\ result (Mapinfo.is_single_player m') = Returned answer)
  /\ (exists answer,
         Mapinfo.is_coop m buffer = ret answer
         /\ Mapinfo.is_coop m' buffer = ret answer)
  /\ (exists answer,
         Mapinfo.is_dukematch m buffer = ret answer
         /\ Mapinfo.is_dukematch m' buffer = ret answer)
  /\ result (Mapinfo.is_single_player m) <> Fault
  /\ result (Mapinfo.is_coop m buffer) <> Fault
  /\ result (Mapinfo.is_dukematch m buffer) <> Fault.
Proof.
  intros Hm Hm' Hmarks.
  rewrite (is_single_player_result m Hm), (is_single_player_result m' Hm').
  rewrite (is_coop_spec m buffer Hm), (is_coop_spec m' buffer Hm').
  rewrite (is_dukematch_spec m buffer Hm), (is_dukematch_spec m' buffer Hm').
  cbv zeta.
  rewrite <- (same_marks_first_answer _ _ Hmarks).
  rewrite <- !(same_marks_player_starts _ _ _ Hmarks).
  repeat split; try (eexists; split; reflexivity); discriminate.
Qed.

Lemma classifier_stays_in_bounds_witness :
  decoded wild_map /\ decoded tame_map
  /\ result (Mapinfo.is_single_player wild_map) <> Fault
  /\ exists answer,
       Mapinfo.is_coop wild_map "" = ret answer
       /\ Mapinfo.is_coop tame_map "" = ret answer.
Proof.
  assert (decoded wild_map) as Hw.
  { constructor; cbn; unfold in_range; cbn; lia. }
  assert (decoded tame_map) as Ht.
  { constructor; cbn; unfold in_range; cbn; lia. }
  split; [exact Hw|]. split; [exact Ht|].
  assert (Forall2 same_marks (elements (sprite wild_map))
            (elements (sprite tame_map))) as Hmarks.
  { repeat constructor. }
  destruct (classifier_stays_in_bounds wild_map tame_map "" Hw Ht Hmarks)
    as (_ & Hcoop & _ & Hfault & _).
  split; [exact Hfault | exact Hcoop].
Defined.

(** ** Dependence on the order of the records *)

Lemma player_starts_permutation (tag : Z) (l l' : list sprite_t) :
  Permutation l l' -> player_starts tag l = player_starts tag l'.
Proof.
  unfold player_starts.
  induction 1 as [|x l l' _ IH|x y l|l l' l'' _ IH1 _ IH2]; cbn [filter].
  - reflexivity.
  - destruct (is_player_start tag x); cbn [length]; congruence.
  - destruct (is_player_start tag x), (is_player_start tag y); reflexivity.
  - congruence.
Qed.

Lemma first_answer_none_permutation (l l' : list sprite_t) :
  Permutation l l' -> first_answer l = None -> first_answer l' = None.
Proof.
  intros Hperm H. apply first_answer_none. intros s Hs.
  apply (proj1 (first_answer_none l) H).
  apply (Permutation_in s (Permutation_sym Hperm) Hs).
Qed.

Lemma decoded_count_length (m : map_t) :
  decoded m -> sprite_count m = Z.of_nat (length (elements (sprite m))).
Proof.
  intros Hm.
  pose proof (holds_length _ _ (decoded_sprite m Hm)).
  pose proof (ushort_nonneg _ (decoded_sprite_count m Hm)). lia.
Qed.

(** The answer of [is_single_player] is not a function of the multiset of
    sprites: two switches in the other order give another answer. *)
Lemma single_player_answer_depends_on_order :
  let sprites := [marker 142 32767 0; marker 142 65535 0] in
  Permutation sprites (rev sprites)
  /\ decoded (sprites_only sprites)
  /\ decoded (sprites_only (rev sprites))
  /\ result (Mapinfo.is_single_player (sprites_only sprites))
     = Returned Mapinfo.yes_unknown
  /\ result (Mapinfo.is_single_player (sprites_only (rev sprites)))
     = Returned Mapinfo.yes_nuke_button
  /\ result (Mapinfo.is_single_player (sprites_only sprites))
     <> result (Mapinfo.is_single_player (sprites_only (rev sprites))).
Proof.
  intros sprites.
  split; [apply Permutation_rev|].
  split; [constructor; cbn; unfold in_range; cbn; lia|].
  split; [constructor; cbn; unfold in_range; cbn; lia|].
  split; [reflexivity|]. split; [reflexivity|].
  vm_compute. discriminate.
Qed.

(** C7, as the code has it. Each derivation is a function of the decoded
    arrays that leaves the map alone. On two decoded maps with the same
    sector and wall counts whose sprite arrays are permutations of each
    other, [is_coop] and [is_dukematch] return the same answer and print
    nothing, [is_vanilla_compatible] gives the same verdict, and
    [is_single_player] answers "No" on the one exactly when it does on the
    other; which "Yes" it answers is decided by the first switch in array
    order. *)
Theorem derivations_up_to_order (m m' : map_t) (buffer : string) :
  decoded m -> decoded m' ->
  Permutation (elements (sprite m)) (elements (sprite m')) ->
  sector_count m = sector_count m' -> wall_count m = wall_count m' ->
  Mapinfo.is_coop m buffer = Mapinfo.is_coop m' buffer
  /\ Mapinfo.is_dukematch m buffer = Mapinfo.is_dukematch m' buffer
  /\ events (Mapinfo.is_coop m buffer) = []
  /\ events (Mapinfo.is_dukematch m buffer) = []
  /\ Mapinfo.is_vanilla_compatible m = Mapinfo.is_vanilla_compatible m'
  /\ (result (Mapinfo.is_single_player m) = Returned Mapinfo.no <->
      result (Mapinfo.is_single_player m') = Returned Mapinfo.no)
  /\ result (Mapinfo.is_single_player m)
     = Returned match first_answer (elements (sprite m)) with
                | Some answer => answer
                | None => Mapinfo.no
                end.
Proof.
  intros Hm Hm' Hperm Hsectors Hwalls.
  rewrite (is_coop_spec m buffer Hm), (is_coop_spec m' buffer Hm').
  rewrite (is_dukematch_spec m buffer Hm), (is_dukematch_spec m' buffer Hm').
  rewrite (is_single_player_result m Hm), (is_single_player_result m' Hm').
  cbv zeta.
  rewrite <- !(player_starts_permutation _ _ _ Hperm).
  repeat split.
  - unfold Mapinfo.is_vanilla_compatible.
    rewrite Hsectors, Hwalls.
    rewrite (decoded_count_length m Hm), (decoded_count_length m' Hm').
    rewrite (Permutation_length Hperm). reflexivity.
  - destruct (first_answer (elements (sprite m))) as [a|] eqn:E.
    + intros [= ->]. apply first_answer_some in E.
      destruct E as (s & _ & Hs). destruct (nuke_button_never_no s Hs).
    + intros _.
      rewrite (first_answer_none_permutation _ _ Hperm E). reflexivity.
  - destruct (first_answer (elements (sprite m'))) as [a|] eqn:E.
    + intros [= ->]. apply first_answer_some in E.
      destruct E as (s & _ & Hs). destruct (nuke_button_never_no s Hs).
    + intros _.
      rewrite (first_answer_none_permutation _ _ (Permutation_sym Hperm) E).
      reflexivity.
Qed.

Lemma derivations_up_to_order_witness :
  let sprites := [marker 1405 1 0; marker 142 32767 0; marker 1405 0 0;
                  marker 142 65535 0; marker 1405 1 0] in
  decoded (sprites_only sprites)
  /\ decoded (sprites_only (rev sprites))
  /\ Mapinfo.is_coop (sprites_only sprites) ""
     = Mapinfo.is_coop (sprites_only (rev sprites)) ""
  /\ Mapinfo.is_dukematch (sprites_only sprites) ""
     = Mapinfo.is_dukematch (sprites_only (rev sprites)) "".
Proof.
  intros sprites.
  assert (decoded (sprites_only sprites)) as Hm.
  { constructor; cbn; unfold in_range; cbn; lia. }
  assert (decoded (sprites_only (rev sprites))) as Hm'.
  { constructor; cbn; unfold in_range; cbn; lia. }
  split; [exact Hm|]. split; [exact Hm'|].
  destruct (derivations_up_to_order (sprites_only sprites)
              (sprites_only (rev sprites)) "" Hm Hm'
              (Permutation_rev sprites) eq_refl eq_refl)
    as (Hcoop & Hduke & _).
  split; [exact Hcoop | exact Hduke].
Defined.

(** ** The type of the sprite tags *)

Lemma fread_short_of_ushort (old : Z) (fp : FILE) :
  fread t_short old fp
  = (to_signed 16 (fst (fread t_ushort old fp)), snd (fread t_ushort old fp)).
Proof. reflexivity. Qed.

Lemma signed_of_ushort (v : Z) :
  in_range t_ushort v -> in_range t_short (to_signed 16 v).
Proof.
  intros (Hmin & Hmax).
  change (min_value t_ushort) with 0 in Hmin.
  change (max_value t_ushort) with 65535 in Hmax.
  unfold in_range, to_signed.
  change (min_value t_short) with (-32768).
  change (max_value t_short) with 32767.
  change (2 ^ (16 - 1)) with 32768. change (2 ^ 16) with 65536.
  destruct (Z.ltb_spec v 32768); lia.
Qed.

(** One [fread] of the two decoders at a time: where the summary dumper
    reads a [short] and the classifying one an [unsigned short] from the
    same place, the first is expressed by the second. *)
Ltac step_fread :=
  match goal with
  | |- context [fread t_short ?o ?f] =>
      match goal with
      | |- context [fread t_ushort o f] => rewrite (fread_short_of_ushort o f)
      end
  | |- context [fread ?t ?o ?f] =>
      let H := fresh "Hrange" in
      pose proof (fread_in_range t o f) as H;
      destruct (fread t o f) as [? ?]; cbn [fst snd] in H |- *
  end.

(** The same bytes, read by the two dumpers: FF FF is 65535 for the one and
    -1 for the other. *)
Lemma dumpers_disagree_on_tags :
  lotag (fst (Mapinfo.sprite_read sprite_zero switch_record)) = 65535
  /\ lotag (fst (MapinfoSummary.sprite_read sprite_zero switch_record)) = -1
  /\ hitag (fst (Mapinfo.sprite_read sprite_zero switch_record)) = 65534
  /\ hitag (fst (MapinfoSummary.sprite_read sprite_zero switch_record)) = -2
  /\ extra (fst (Mapinfo.sprite_read sprite_zero switch_record)) = -1
  /\ extra (fst (MapinfoSummary.sprite_read sprite_zero switch_record)) = -1
  /\ Mapinfo.nuke_button (fst (Mapinfo.sprite_read sprite_zero switch_record))
     = Some Mapinfo.yes_nuke_button
  /\ Mapinfo.nuke_button
       (fst (MapinfoSummary.sprite_read sprite_zero switch_record))
     = None.
Proof. repeat split; vm_compute; reflexivity. Qed.

(** C9, as the code has it. The classifying dumper decodes a sprite's lotag
    and hitag as unsigned 16-bit values, so that 65535 can be read, and its
    extra as a signed one. The summary dumper decodes lotag and hitag as
    signed 16-bit values: from the same bytes it gets the two's complement
    reading of what the classifying dumper gets, never 65535, and agrees
    with it on every other field and on the bytes consumed. *)
Theorem sprite_tags_by_dumper (old : sprite_t) (fp : FILE) :
  let a := fst (Mapinfo.sprite_read old fp) in
  let b := fst (MapinfoSummary.sprite_read old fp) in
  in_range t_ushort (lotag a) /\ in_range t_ushort (hitag a)
  /\ in_range t_short (extra a)
  /\ in_range t_short (lotag b) /\ in_range t_short (hitag b)
  /\ b = with_tags a (to_signed 16 (lotag a)) (to_signed 16 (hitag a))
  /\ snd (MapinfoSummary.sprite_read old fp) = snd (Mapinfo.sprite_read old fp)
  /\ lotag b <> 65535
  /\ (exists fp', lotag (fst (Mapinfo.sprite_read old fp')) = 65535).
Proof.
  cbv zeta.
  assert (exists fp', lotag (fst (Mapinfo.sprite_read old fp')) = 65535)
    as Hreach.
  { exists switch_record. vm_compute. reflexivity. }
  revert Hreach.
  unfold MapinfoSummary.sprite_read, Mapinfo.sprite_read,
    MapinfoSummary.tag_t, Mapinfo.tag_t, sprite_read_as, rbind, rret.
  intros Hreach.
  repeat step_fread.
  cbn [fst snd lotag hitag extra with_tags position stat pic shade pal
         clipping_distance filler repeat offset sector_of status angle owner
         vel].
  repeat match goal with |- _ /\ _ => split end;
    auto using signed_of_ushort.
  intros Heq.
  match goal with
  | H : in_range t_ushort ?v |- _ =>
      match type of Heq with
      | to_signed 16 v = _ =>
          destruct (signed_of_ushort v H) as (_ & Hmax)
      end
  end.
  rewrite Heq in Hmax. change (max_value t_short) with 32767 in Hmax. lia.
Qed.

(** ** Streams that end early *)








Lemma u16_at_some (fp : list byte) (off n : nat) :
  u16_at fp off = Some n ->
  (off + 2 <= length fp)%nat
  /\ Z.of_nat n = le_combine (firstn 2 (skipn off fp)).
Proof.
  unfold u16_at.
  destruct (Nat.leb_spec (off + 2) (length fp)) as [Hlen|Hlen];
    [|discriminate].
  intros Hn. split; [exact Hlen|].
  pose proof (le_combine_bound (firstn 2 (skipn off fp)) 2
                (firstn_le_length _ _)).
  assert (n = Z.to_nat (le_combine (firstn 2 (skipn off fp)))) by congruence.
  lia.
Qed.




(** ** The batch loop *)

Lemma returns_ret {A} (a : A) : returns (ret a).
Proof. exists a. reflexivity. Qed.

Lemma returns_emit (e : event) : returns (emit e).
Proof. exists tt. reflexivity. Qed.

Lemma returns_bind {A B} (c : proc A) (k : A -> proc B) :
  returns c -> (forall a, returns (k a)) -> returns (bind c k).
Proof.
  intros (a & Ha) Hk. destruct c as [out r]. cbn [result snd] in Ha. subst r.
  rewrite bind_returned. apply Hk.
Qed.

Lemma returns_eq {A} (c : proc A) (out : list event) (a : A) :
  c = (out, Returned a) -> returns c.
Proof. intros ->. exists a. reflexivity. Qed.

Lemma returned_unit (c : proc unit) :
  returns c -> c = (events c, Returned tt).
Proof.
  intros ([] & H). destruct c as [out r]. cbn in *. subst. reflexivity.
Qed.

(** On a decoded map [map_print] goes through. *)
Lemma map_print_returns (m : map_t) (path : string) :
  decoded m -> returns (Mapinfo.map_print m path).
Proof.
  intros Hm.
  assert (returns (Mapinfo.is_single_player m)) as Hsingle.
  { eexists. apply is_single_player_result, Hm. }
  assert (forall buffer, returns (Mapinfo.is_coop m buffer)) as Hcoop.
  { intros buffer. eapply returns_eq. apply (is_coop_spec m buffer Hm). }
  assert (forall buffer, returns (Mapinfo.is_dukematch m buffer)) as Hduke.
  { intros buffer. eapply returns_eq. apply (is_dukematch_spec m buffer Hm). }
  unfold Mapinfo.map_print, printf.
  repeat first
    [ apply returns_emit
    | apply Hsingle
    | apply Hcoop
    | apply Hduke
    | apply returns_bind; [|intros ?] ].
Qed.

Section Batch.

Variable w : world.
Hypothesis Hheap : forall i, allocates (allocations w i).

Lemma main_loop_step (path : string) (rest : list string) (i : nat) :
  readable w path ->
  Mapinfo.main_loop w (path :: rest) i
  = (report w i path ++ events (Mapinfo.main_loop w rest (S i)),
     result (Mapinfo.main_loop w rest (S i))).
Proof.
  intros (Hopen & Hclose).
  destruct (file_content w path) as [fp|] eqn:E; [|congruence].
  cbn [Mapinfo.main_loop]. unfold Mapinfo.map_read.
  rewrite (map_read_returns _ _ _ _ _ fp E Hclose), bind_ret.
  pose proof (map_print_returns
                (fst (map_read_stream_as Mapinfo.tag_t (allocations w i)
                        map_zero fp)) path
                (map_read_stream_decoded _ _ _ _ (Hheap i))) as Hprint.
  rewrite (returned_unit _ Hprint), bind_returned.
  unfold report. rewrite E. reflexivity.
Qed.

Lemma main_loop_readable (files : list string) :
  forall rest i, Forall (readable w) files ->
    Mapinfo.main_loop w (files ++ rest) i
    = (reports w i files
         ++ events (Mapinfo.main_loop w rest (i + length files)),
       result (Mapinfo.main_loop w rest (i + length files))).
Proof.
  induction files as [|path files IH]; intros rest i Hfiles.
  - cbn [app reports length]. rewrite Nat.add_0_r.
    destruct (Mapinfo.main_loop w rest i); reflexivity.
  - inversion Hfiles as [|? ? Hpath Hrest]; subst.
    cbn [app]. rewrite (main_loop_step _ _ _ Hpath).
    rewrite (IH rest (S i) Hrest). cbn [events result fst snd reports length].
    rewrite <- Nat.add_succ_comm, app_assoc. reflexivity.
Qed.

Lemma main_loop_unopenable (bad : string) (after : list string) (i : nat) :
  file_content w bad = None ->
  Mapinfo.main_loop w (bad :: after) i = ([Perror "fopen"], Exited error_fopen).
Proof.
  intros Hbad. cbn [Mapinfo.main_loop]. unfold Mapinfo.map_read.
  rewrite (map_read_unopenable _ _ _ _ _ Hbad). reflexivity.
Qed.

Lemma main_loop_unclosable (bad : string) (after : list string) (i : nat) :
  file_content w bad <> None -> fclose_fails w bad = true ->
  Mapinfo.main_loop w (bad :: after) i = ([Perror "fclose"], Exited error_fclose).
Proof.
  intros Hopen Hclose. cbn [Mapinfo.main_loop]. unfold Mapinfo.map_read.
  destruct (file_content w bad) as [fp|] eqn:E; [|congruence].
  rewrite (map_read_unclosable _ _ _ _ _ fp E Hclose). reflexivity.
Qed.

Lemma main_runs_loop (prgname : string) (files : list string) :
  files <> [] ->
  Mapinfo.main w (prgname :: files)
  = bind (Mapinfo.main_loop w files 1) (fun _ => ret EXIT_SUCCESS).
Proof. destruct files; [congruence | reflexivity]. Qed.

End Batch.

(** The second file is never looked at when the first cannot be opened. *)
Lemma main_aborts_the_batch :
  file_content (sample_world heap_zero) "empty.map" <> None
  /\ Mapinfo.main (sample_world heap_zero) ["mapinfo"; "missing.map"; "empty.map"]
     = ([Perror "fopen"], Exited error_fopen)
  /\ MapinfoSummary.main (sample_world heap_zero)
       ["mapinfo"; "missing.map"; "empty.map"]
     = ([Perror "fopen"], Exited error_fopen)
  /\ exists out,
       Mapinfo.main (sample_world heap_zero) ["mapinfo"; "empty.map"]
       = (out, Returned EXIT_SUCCESS) /\ out <> [].
Proof.
  split; [discriminate|]. split; [reflexivity|]. split; [reflexivity|].
  eexists. split; [vm_compute; reflexivity | discriminate].
Qed.


(** ** Bytes taken off the stream *)

Lemma consumes_fread (t : ctype) (old : Z) : consumes (sizeof t) (fread t old).
Proof. intros fp. reflexivity. Qed.

Lemma consumes_rret {A} (a : A) : consumes 0 (rret a).
Proof. intros fp. reflexivity. Qed.

Lemma consumes_rbind {A B} (n k total : nat) (c : reader A) (f : A -> reader B) :
  consumes n c -> (forall a, consumes k (f a)) -> (k + n = total)%nat ->
  consumes total (rbind c f).
Proof.
  intros Hc Hf <- fp. unfold rbind.
  specialize (Hc fp). destruct (c fp) as [a fp']. cbn [snd] in Hc. subst fp'.
  rewrite Hf, skipn_skipn. reflexivity.
Qed.

Ltac count_bytes :=
  repeat first
    [ apply consumes_rret
    | apply consumes_fread
    | eapply consumes_rbind; [apply consumes_fread | intros ? | ] ];
  reflexivity.

Lemma sector_read_consumes (s : sector_t) : consumes 40 (sector_read s).
Proof. unfold sector_read. count_bytes. Qed.

Lemma wall_read_consumes (x : wall_t) : consumes 32 (wall_read x).
Proof. unfold wall_read. count_bytes. Qed.

Lemma sprite_read_consumes (tag_t : ctype) (s : sprite_t) :
  sizeof tag_t = 2%nat -> consumes 44 (sprite_read_as tag_t s).
Proof.
  intros Htag. unfold sprite_read_as.
  destruct tag_t; try discriminate Htag; count_bytes.
Qed.

(** ** Records the stream holds whole *)

Lemma rbind_fread_supplied {B} (t : ctype) (old : Z) (k : Z -> reader B)
      (fp : FILE) :
  (sizeof t <= length fp)%nat ->
  rbind (fread t old) k fp = k (load t fp) (skipn (sizeof t) fp).
Proof. intros H. unfold rbind. rewrite (fread_supplied t old fp H). reflexivity. Qed.

Ltac enough_bytes :=
  rewrite ?length_skipn; cbn [sizeof]; lia.

Ltac read_whole :=
  repeat (rewrite !rbind_fread_supplied by enough_bytes; cbv beta).

Lemma sector_read_overwrites : overwrites 40 sector_read.
Proof.
  intros x y fp Hlen. unfold sector_read. read_whole. reflexivity.
Qed.

Lemma wall_read_overwrites : overwrites 32 wall_read.
Proof.
  intros x y fp Hlen. unfold wall_read. read_whole. reflexivity.
Qed.

Lemma sprite_read_overwrites (tag_t : ctype) :
  sizeof tag_t = 2%nat -> overwrites 44 (sprite_read_as tag_t).
Proof.
  intros Htag x y fp Hlen. unfold sprite_read_as.
  destruct tag_t; try discriminate Htag; read_whole; reflexivity.
Qed.

(** X1. [sector_read], [wall_read] and [sprite_read] (in both dumpers)
    take 40, 32 and 44 bytes off the stream, or all that is left of it; and
    when the stream holds the whole record the record read does not depend
    on what the destination held before. *)
Theorem records_have_fixed_sizes :
  (forall s, consumes 40 (sector_read s))
  /\ (forall x, consumes 32 (wall_read x))
  /\ (forall s, consumes 44 (Mapinfo.sprite_read s))
  /\ (forall s, consumes 44 (MapinfoSummary.sprite_read s))
  /\ overwrites 40 sector_read
  /\ overwrites 32 wall_read
  /\ overwrites 44 Mapinfo.sprite_read
  /\ overwrites 44 MapinfoSummary.sprite_read.
Proof.
  repeat split;
    auto using sector_read_consumes, wall_read_consumes,
      sector_read_overwrites, wall_read_overwrites;
    try (intros s; apply sprite_read_consumes; reflexivity);
    apply sprite_read_overwrites; reflexivity.
Qed.

(** ** Arrays read from the stream *)

Lemma read_array_consumes {A} (n : nat) (read : A -> reader A) (a : list A) :
  (forall x, consumes n (read x)) -> consumes (n * length a) (read_array read a).
Proof.
  intros Hread. induction a as [|x a IH]; cbn [read_array length].
  - rewrite Nat.mul_0_r. apply consumes_rret.
  - eapply consumes_rbind; [apply Hread | intros x' | ].
    + eapply consumes_rbind; [apply IH | intros a'; apply consumes_rret | ].
      reflexivity.
    + lia.
Qed.

Lemma read_elements_consumes {A} (n : nat) (read : A -> reader A)
      (p : option (list A)) :
  (forall x, consumes n (read x)) ->
  consumes (n * length (elements p)) (read_elements read p).
Proof.
  intros Hread. destruct p as [a|]; cbn [read_elements elements length].
  - eapply consumes_rbind;
      [apply (read_array_consumes n read a Hread)
      | intros a'; apply consumes_rret | reflexivity].
  - rewrite Nat.mul_0_r. apply consumes_rret.
Qed.

Lemma read_elements_length {A} (read : A -> reader A) (p : option (list A))
      (fp : FILE) :
  length (elements (fst (read_elements read p fp))) = length (elements p).
Proof.
  destruct p as [a|]; cbn [read_elements]; [|reflexivity].
  unfold rbind, rret.
  pose proof (read_array_length read a fp) as H.
  destruct (read_array read a fp). exact H.
Qed.

Lemma read_array_overwrites {A} (n : nat) (read : A -> reader A) :
  (forall x, consumes n (read x)) -> overwrites n read ->
  forall a a' fp, length a = length a' -> (n * length a <= length fp)%nat ->
    read_array read a fp = read_array read a' fp.
Proof.
  intros Hrest Hread. induction a as [|x a IH]; intros [|y a'] fp Hlen Hfp;
    try discriminate Hlen; [reflexivity|].
  cbn [length] in *. cbn [read_array]. unfold rbind.
  rewrite (Hread x y fp) by lia.
  pose proof (Hrest y fp) as Hy. destruct (read y fp) as [y' fp1].
  cbn [snd] in Hy. subst fp1.
  rewrite (IH a' (skipn n fp)) by (rewrite ?length_skipn; lia).
  reflexivity.
Qed.

Lemma malloc_elements {A} (mem : option (nat -> A)) (count : Z) :
  mem <> None -> length (elements (malloc mem count)) = Z.to_nat count.
Proof.
  destruct mem as [junk|]; [|congruence]. intros _.
  cbn [malloc elements]. rewrite length_map, length_seq. reflexivity.
Qed.

Lemma read_elements_overwrites {A} (n : nat) (read : A -> reader A)
      (mem mem' : option (nat -> A)) (count : Z) (fp : FILE) :
  (forall x, consumes n (read x)) -> overwrites n read ->
  mem <> None -> mem' <> None ->
  (n * Z.to_nat count <= length fp)%nat ->
  read_elements read (malloc mem count) fp
  = read_elements read (malloc mem' count) fp.
Proof.
  intros Hrest Hread Hmem Hmem' Hfp.
  destruct mem as [junk|]; [|congruence].
  destruct mem' as [junk'|]; [|congruence].
  cbn [malloc read_elements]. unfold rbind.
  rewrite (read_array_overwrites n read Hrest Hread
             (map junk (seq 0 (Z.to_nat count)))
             (map junk' (seq 0 (Z.to_nat count))) fp).
  - reflexivity.
  - rewrite !length_map. reflexivity.
  - rewrite length_map, length_seq. exact Hfp.
Qed.

(** ** The phases of [map_read] *)

Lemma rbind_run {A B} (c : reader A) (k : A -> reader B) (fp : FILE) :
  rbind c k fp = k (fst (c fp)) (snd (c fp)).
Proof. unfold rbind. destruct (c fp); reflexivity. Qed.

Lemma rbind_fread {B} (t : ctype) (old : Z) (k : Z -> reader B) (fp : FILE) :
  rbind (fread t old) k fp = k (fst (fread t old fp)) (skipn (sizeof t) fp).
Proof. apply rbind_run. Qed.

(** The header is read from the first 22 bytes, each array from where the
    one before it stopped. *)
Lemma map_read_stream_phases (tag_t : ctype) (heap : heap_t) (m : map_t)
      (fp : FILE) :
  let sectors_n := fst (fread t_ushort (sector_count m) (skipn 20 fp)) in
  let sectors :=
    read_elements sector_read (malloc (sector_mem heap) sectors_n) (skipn 22 fp) in
  let walls_n := fst (fread t_ushort (wall_count m) (snd sectors)) in
  let walls :=
    read_elements wall_read (malloc (wall_mem heap) walls_n)
      (skipn 2 (snd sectors)) in
  let sprites_n := fst (fread t_ushort (sprite_count m) (snd walls)) in
  let sprites :=
    read_elements (sprite_read_as tag_t) (malloc (sprite_mem heap) sprites_n)
      (skipn 2 (snd walls)) in
  map_read_stream_as tag_t heap m fp
  = ({| version := fst (fread t_int (version m) fp);
        player :=
          {| player_position :=
               {| v3i32_x :=
                    fst (fread t_int (v3i32_x (player_position (player m)))
                           (skipn 4 fp));
                  v3i32_y :=
                    fst (fread t_int (v3i32_y (player_position (player m)))
                           (skipn 8 fp));
                  v3i32_z :=
                    fst (fread t_int (v3i32_z (player_position (player m)))
                           (skipn 12 fp)) |};
             player_angle :=
               fst (fread t_short (player_angle (player m)) (skipn 16 fp)) |};
        sector_start := fst (fread t_short (sector_start m) (skipn 18 fp));
        sector_count := sectors_n;
        sector := fst sectors;
        wall_count := walls_n;
        wall := fst walls;
        sprite_count := sprites_n;
        sprite := fst sprites |},
     snd sprites).
Proof.
  cbv zeta. unfold map_read_stream_as.
  do 7 (rewrite rbind_fread; cbv beta; rewrite ?skipn_skipn;
        cbn [sizeof Nat.add]).
  rewrite rbind_run; cbv beta.
  rewrite rbind_fread; cbv beta. cbn [sizeof].
  rewrite rbind_run; cbv beta.
  rewrite rbind_fread; cbv beta. cbn [sizeof].
  rewrite rbind_run; cbv beta.
  reflexivity.
Qed.

Lemma holds_count {A} (count : Z) (p : option (list A)) :
  holds count p -> 0 <= count -> Z.of_nat (length (elements p)) = count.
Proof. destruct p; cbn [holds elements length]; intros; subst; lia. Qed.

(** X2. When the three allocations succeed, whatever the stream holds,
    each array of the map read has as many elements as its count says, and
    the bytes read are 26 for the header and the three counts, 40 for each
    sector, 32 for each wall and 44 for each sprite (or all the stream
    has). *)
Theorem map_read_takes_declared_bytes (tag_t : ctype) (heap : heap_t)
        (m : map_t) (fp : FILE) :
  sizeof tag_t = 2%nat -> allocates heap ->
  let m' := fst (map_read_stream_as tag_t heap m fp) in
  Z.of_nat (length (elements (sector m'))) = sector_count m'
  /\ Z.of_nat (length (elements (wall m'))) = wall_count m'
  /\ Z.of_nat (length (elements (sprite m'))) = sprite_count m'
  /\ snd (map_read_stream_as tag_t heap m fp)
     = skipn (26 + 40 * length (elements (sector m'))
                 + 32 * length (elements (wall m'))
                 + 44 * length (elements (sprite m'))) fp.
Proof.
  intros Htag Hheap m'.
  pose proof (map_read_stream_decoded tag_t heap m fp Hheap) as Hm.
  fold m' in Hm.
  split; [apply holds_count;
          [apply (decoded_sector _ Hm)
          | apply ushort_nonneg, (decoded_sector_count _ Hm)]|].
  split; [apply holds_count;
          [apply (decoded_wall _ Hm)
          | apply ushort_nonneg, (decoded_wall_count _ Hm)]|].
  split; [apply holds_count;
          [apply (decoded_sprite _ Hm)
          | apply ushort_nonneg, (decoded_sprite_count _ Hm)]|].
  subst m'. rewrite (map_read_stream_phases tag_t heap m fp).
  cbn [fst snd sector wall sprite].
  rewrite !read_elements_length.
  rewrite (read_elements_consumes 44 (sprite_read_as tag_t))
    by (intros s; apply sprite_read_consumes, Htag).
  rewrite (read_elements_consumes 32 wall_read) by apply wall_read_consumes.
  rewrite (read_elements_consumes 40 sector_read) by apply sector_read_consumes.
  rewrite !skipn_skipn. f_equal. lia.
Qed.

Lemma map_read_takes_declared_bytes_witness :
  allocates heap_zero
  /\ snd (Mapinfo.map_read_stream heap_zero map_zero (switch_map_file ++ [x2a]))
     = [x2a].
Proof.
  assert (allocates heap_zero) as Hheap by (repeat split; discriminate).
  split; [exact Hheap|].
  destruct (map_read_takes_declared_bytes Mapinfo.tag_t heap_zero map_zero
              (switch_map_file ++ [x2a]) eq_refl Hheap) as (_ & _ & _ & H).
  exact H.
Defined.

(** ** Complete files *)

Lemma count_at (fp : list byte) (off n : nat) (old : Z) :
  u16_at fp off = Some n ->
  fst (fread t_ushort old (skipn off fp)) = Z.of_nat n.
Proof.
  intros H. apply u16_at_some in H. destruct H as (Hlen & ->).
  rewrite fread_supplied by (rewrite length_skipn; cbn [sizeof]; lia).
  reflexivity.
Qed.

Lemma array_phase {A} (n : nat) (read : A -> reader A)
      (mem mem' : option (nat -> A)) (old old' : Z) (fp : list byte)
      (off cnt : nat) :
  (forall x, consumes n (read x)) -> overwrites n read ->
  mem <> None -> mem' <> None ->
  u16_at fp off = Some cnt -> (off + 2 + n * cnt <= length fp)%nat ->
  fst (fread t_ushort old (skipn off fp)) = Z.of_nat cnt
  /\ fst (fread t_ushort old' (skipn off fp)) = Z.of_nat cnt
  /\ read_elements read (malloc mem (Z.of_nat cnt)) (skipn (off + 2) fp)
     = read_elements read (malloc mem' (Z.of_nat cnt)) (skipn (off + 2) fp)
  /\ snd (read_elements read (malloc mem (Z.of_nat cnt)) (skipn (off + 2) fp))
     = skipn (off + 2 + n * cnt) fp.
Proof.
  intros Hrest Hread Hmem Hmem' Hcnt Hlen.
  split; [apply count_at, Hcnt|]. split; [apply count_at, Hcnt|].
  split.
  - apply (read_elements_overwrites n read mem mem' _ _ Hrest Hread Hmem Hmem').
    rewrite length_skipn, Nat2Z.id. lia.
  - rewrite (read_elements_consumes n read _ Hrest).
    rewrite (malloc_elements mem _ Hmem), Nat2Z.id, skipn_skipn.
    f_equal. lia.
Qed.

Lemma complete_file (fp : list byte) :
  truncated fp = false ->
  exists sectors walls sprites,
    u16_at fp 20 = Some sectors
    /\ u16_at fp (20 + 2 + 40 * sectors) = Some walls
    /\ u16_at fp (20 + 2 + 40 * sectors + 2 + 32 * walls) = Some sprites
    /\ (20 + 2 + 40 * sectors + 2 + 32 * walls + 2 + 44 * sprites
        <= length fp)%nat.
Proof.
  unfold truncated, declared_length.
  destruct (u16_at fp 20) as [sectors|] eqn:E1; [|discriminate].
  cbv zeta.
  destruct (u16_at fp (22 + 40 * sectors)) as [walls|] eqn:E2; [|discriminate].
  destruct (u16_at fp (22 + 40 * sectors + 2 + 32 * walls)) as [sprites|] eqn:E3;
    [|discriminate].
  intros H. apply Nat.ltb_ge in H.
  exists sectors, walls, sprites. repeat split; assumption.
Qed.

Lemma complete_stream_read (tag_t : ctype) (heap heap' : heap_t)
      (m m' : map_t) (fp : FILE) :
  sizeof tag_t = 2%nat -> allocates heap -> allocates heap' ->
  truncated fp = false ->
  map_read_stream_as tag_t heap m fp = map_read_stream_as tag_t heap' m' fp.
Proof.
  intros Htag (Hs & Hw & Hp) (Hs' & Hw' & Hp') Hfp.
  destruct (complete_file fp Hfp) as (ns & nw & np & E1 & E2 & E3 & Hlen).
  rewrite (map_read_stream_phases tag_t heap m fp).
  rewrite (map_read_stream_phases tag_t heap' m' fp).
  cbv zeta.
  destruct (array_phase 40 sector_read (sector_mem heap) (sector_mem heap')
              (sector_count m) (sector_count m') fp 20 ns
              sector_read_consumes sector_read_overwrites Hs Hs' E1
              ltac:(lia)) as (C1 & C1' & A1 & R1).
  rewrite C1, C1'. change (skipn 22 fp) with (skipn (20 + 2) fp).
  rewrite <- A1, R1.
  destruct (array_phase 32 wall_read (wall_mem heap) (wall_mem heap')
              (wall_count m) (wall_count m') fp _ nw
              wall_read_consumes wall_read_overwrites Hw Hw' E2
              ltac:(lia)) as (C2 & C2' & A2 & R2).
  rewrite C2, C2', skipn_skipn.
  rewrite (Nat.add_comm 2). rewrite <- A2, R2.
  destruct (array_phase 44 (sprite_read_as tag_t) (sprite_mem heap)
              (sprite_mem heap') (sprite_count m) (sprite_count m') fp _ np
              (fun s => sprite_read_consumes tag_t s Htag)
              (sprite_read_overwrites tag_t Htag) Hp Hp' E3
              ltac:(lia)) as (C3 & C3' & A3 & R3).
  rewrite C3, C3', skipn_skipn.
  rewrite (Nat.add_comm 2). rewrite <- A3.
  rewrite !fread_supplied by (rewrite ?length_skipn; cbn [sizeof]; lia).
  reflexivity.
Qed.

(** X3. A stream that is not cut short determines what [map_read] reads:
    with successful allocations the map and the rest of the stream are the
    same whatever the allocator handed out and whatever the map held
    before. *)
Theorem complete_file_determines_map (tag_t : ctype) (heap heap' : heap_t)
        (m m' : map_t) (fp : FILE) :
  sizeof tag_t = 2%nat -> allocates heap -> allocates heap' ->
  truncated fp = false ->
  map_read_stream_as tag_t heap m fp = map_read_stream_as tag_t heap' m' fp.
Proof. apply complete_stream_read. Qed.

Lemma complete_file_determines_map_witness :
  truncated switch_map_file = false
  /\ Mapinfo.map_read_stream heap_zero map_zero switch_map_file
     = Mapinfo.map_read_stream heap_stale (sprites_only [marker 1 2 3])
         switch_map_file.
Proof.
  split; [reflexivity|].
  apply (complete_file_determines_map Mapinfo.tag_t heap_zero heap_stale);
    [reflexivity | repeat split; discriminate | repeat split; discriminate
    | reflexivity].
Defined.

(** ** The sector dump *)

Lemma sector_print_line (s : sector_t) :
  Mapinfo.sector_print s = ([Stdout (sector_line s)], Returned tt).
Proof. reflexivity. Qed.

(** X5. [sector_print] passes 23 arguments to a format with 22
    conversions: the line shows the visibility after "filler:", the filler
    after "lotag:", the lotag after "hitag:" and the hitag after "extra:",
    and does not depend on the sector's [extra]. *)
Theorem sector_print_shifts_its_labels (s : sector_t) :
  Mapinfo.sector_print s = ([Stdout (sector_line s)], Returned tt)
  /\ (forall extra', Mapinfo.sector_print (with_sector_extra s extra')
                     = Mapinfo.sector_print s).
Proof.
  split; [apply sector_print_line | intros extra'; reflexivity].
Qed.

Lemma sector_lines_map (sectors : list sector_t) :
  sector_lines sectors = map (fun s => Stdout (sector_line s)) sectors.
Proof.
  unfold sector_lines. induction sectors as [|s l IH]; [reflexivity|].
  cbn [flat_map map]. rewrite IH.
  rewrite sector_print_line. reflexivity.
Qed.

(** ** The report of the classifying dumper *)

Lemma bind_eq {A B} (c : proc A) (k : A -> proc B) (out out' : list event)
      (a : A) (r : outcome B) :
  c = (out, Returned a) -> k a = (out', r) -> bind c k = (out ++ out', r).
Proof. intros -> Hk. unfold bind. rewrite Hk. reflexivity. Qed.

Lemma bind_faults {A B} (c : proc A) (k : A -> proc B) (out : list event) :
  c = (out, Fault) -> bind c k = (out, Fault).
Proof. intros ->. reflexivity. Qed.

Lemma is_coop_text (m : map_t) (buffer : string) :
  decoded m ->
  exists buffer',
    Mapinfo.is_coop m buffer
    = ([], Returned (capacity_text 1 (elements (sprite m)), buffer')).
Proof.
  intros Hm. rewrite (is_coop_spec m buffer Hm). cbv zeta.
  unfold capacity_text.
  destruct (Z.of_nat (player_starts 1 (elements (sprite m))) =? 0);
    eexists; reflexivity.
Qed.

Lemma is_dukematch_text (m : map_t) (buffer : string) :
  decoded m ->
  exists buffer',
    Mapinfo.is_dukematch m buffer
    = ([], Returned (capacity_text 0 (elements (sprite m)), buffer')).
Proof.
  intros Hm. rewrite (is_dukematch_spec m buffer Hm). cbv zeta.
  unfold capacity_text.
  destruct (Z.of_nat (player_starts 0 (elements (sprite m))) =? 0);
    eexists; reflexivity.
Qed.

Lemma is_single_player_text (m : map_t) :
  decoded m ->
  Mapinfo.is_single_player m
  = (match first_answer (elements (sprite m)) with
     | Some _ => []
     | None => map (fun s => Stdout (sector_line s)) (elements (sector m))
     end,
     Returned (single_player_text (elements (sprite m)))).
Proof.
  intros Hm. rewrite (is_single_player_spec m Hm). unfold single_player_text.
  destruct (first_answer (elements (sprite m))); [reflexivity|].
  rewrite sector_lines_map. reflexivity.
Qed.

Lemma map_print_lines (m : map_t) (path : string) :
  decoded m ->
  Mapinfo.map_print m path = (report_lines m path, Returned tt).
Proof.
  intros Hm.
  destruct (is_coop_text m EmptyString Hm) as (b1 & Hcoop).
  destruct (is_dukematch_text m b1 Hm) as (b2 & Hduke).
  assert (exists out, Mapinfo.map_print m path = (out, Returned tt)
                      /\ out = report_lines m path) as (out & -> & ->);
    [|reflexivity].
  eexists. split.
  - unfold Mapinfo.map_print. cbv zeta.
    eapply bind_eq; [reflexivity|].
    eapply bind_eq; [reflexivity|].
    eapply bind_eq; [apply (is_single_player_text m Hm)|].
    eapply bind_eq; [reflexivity|].
    eapply bind_eq; [exact Hcoop|].
    eapply bind_eq; [reflexivity|].
    cbn [fst snd].
    eapply bind_eq; [exact Hduke|].
    eapply bind_eq; [reflexivity|].
    eapply bind_eq; [reflexivity|].
    eapply bind_eq; [reflexivity|].
    reflexivity.
  - reflexivity.
Qed.

(** X9. On a decoded map [map_print] returns after printing the file
    name, the version, one line per sector if and only if the single-player
    answer is "No", then the single-player, cooperative and DukeMatch
    answers (each from its own count, though the last two share one
    buffer), two empty headings and the compatibility verdict with the
    three counts: 8 lines, plus the sector lines. *)
Theorem report_of_decoded_map (m : map_t) (path : string) :
  decoded m ->
  Mapinfo.map_print m path = (report_lines m path, Returned tt)
  /\ length (report_lines m path)
     = match first_answer (elements (sprite m)) with
       | Some _ => 8%nat
       | None => (8 + length (elements (sector m)))%nat
       end.
Proof.
  intros Hm. split; [apply map_print_lines, Hm|].
  unfold report_lines. rewrite !length_app.
  destruct (first_answer (elements (sprite m))); cbn [length]; [reflexivity|].
  rewrite length_map. lia.
Qed.

Lemma report_of_decoded_map_witness :
  decoded wild_map
  /\ length (events (Mapinfo.map_print wild_map "wild.map")) = 9%nat.
Proof.
  assert (decoded wild_map) as Hm.
  { constructor; cbn; unfold in_range; cbn; lia. }
  split; [exact Hm|].
  destruct (report_of_decoded_map wild_map "wild.map" Hm) as (Hprint & Hlen).
  rewrite Hprint. exact Hlen.
Defined.




(** ** Allocations that fail *)

Lemma scan_null (m : map_t) (n : nat) :
  sprite m = None ->
  Mapinfo.nuke_button_scan m (S n) 0 = ([], Fault).
Proof. intros H. cbn [Mapinfo.nuke_button_scan]. rewrite H. reflexivity. Qed.

Lemma count_null (tag : Z) (m : map_t) (n : nat) :
  sprite m = None ->
  Mapinfo.count_player_starts tag m (S n) 0 0 = ([], Fault).
Proof. intros H. cbn [Mapinfo.count_player_starts]. rewrite H. reflexivity. Qed.

Lemma failed_malloc_sprite (tag_t : ctype) (heap : heap_t) (m : map_t)
      (fp : FILE) :
  sprite_mem heap = None ->
  sprite (fst (map_read_stream_as tag_t heap m fp)) = None.
Proof.
  intros H. rewrite (map_read_stream_phases tag_t heap m fp).
  cbn [fst sprite]. rewrite H. reflexivity.
Qed.

(** X4. [map_read] skips the sprite loop when [malloc] returns [NULL] for
    the sprites but keeps the count it read. When that count is positive
    [is_single_player], [is_coop] and [is_dukematch] fault at their first
    access, and [map_print] faults after its first two lines; the summary
    dumper, which never reads the arrays, still prints its line. *)
Theorem missing_sprite_array_faults (heap : heap_t) (m0 : map_t) (fp : FILE)
        (path : string) (buffer : string) :
  sprite_mem heap = None ->
  let m := fst (Mapinfo.map_read_stream heap m0 fp) in
  0 < sprite_count m ->
  sprite m = None
  /\ Mapinfo.is_single_player m = ([], Fault)
  /\ Mapinfo.is_coop m buffer = ([], Fault)
  /\ Mapinfo.is_dukematch m buffer = ([], Fault)
  /\ Mapinfo.map_print m path
     = ([Stdout (String.concat "" ["Filename: "; path; LF]);
         Stdout (String.concat "" ["MAP version: "; fmt_d (version m); LF])],
        Fault)
  /\ result (MapinfoSummary.map_print
               (fst (MapinfoSummary.map_read_stream heap m0 fp)) path)
     = Returned tt.
Proof.
  intros Hheap m Hcount.
  assert (sprite m = None) as Hnull
      by (apply (failed_malloc_sprite Mapinfo.tag_t), Hheap).
  destruct (Z.to_nat (sprite_count m)) as [|n] eqn:En; [lia|].
  assert (Mapinfo.is_single_player m = ([], Fault)) as Hsingle.
  { unfold Mapinfo.is_single_player. rewrite En, (scan_null m n Hnull).
    reflexivity. }
  split; [exact Hnull|]. split; [exact Hsingle|].
  split; [unfold Mapinfo.is_coop; rewrite En, (count_null 1 m n Hnull);
          reflexivity|].
  split; [unfold Mapinfo.is_dukematch; rewrite En, (count_null 0 m n Hnull);
          reflexivity|].
  split; [|reflexivity].
  unfold Mapinfo.map_print. cbv zeta. rewrite Hsingle. reflexivity.
Qed.

Lemma missing_sprite_array_faults_witness :
  sprite_mem heap_no_sprites = None
  /\ 0 < sprite_count (fst (Mapinfo.map_read_stream heap_no_sprites map_zero
                              cut_map_file))
  /\ result (Mapinfo.map_print
               (fst (Mapinfo.map_read_stream heap_no_sprites map_zero
                       cut_map_file)) "cut.map")
     = Fault.
Proof.
  split; [reflexivity|]. split; [reflexivity|].
  destruct (missing_sprite_array_faults heap_no_sprites map_zero cut_map_file
              "cut.map" "" eq_refl eq_refl) as (_ & _ & _ & _ & H & _).
  rewrite H. reflexivity.
Defined.

(** ** How a batch ends *)

Lemma result_then_ret {A B} (c : proc A) (b : B) :
  result (bind c (fun _ => ret b))
  = match result c with
    | Returned _ => Returned b
    | Exited status => Exited status
    | Fault => Fault
    end.
Proof. destruct c as [out [a|status|]]; reflexivity. Qed.

Lemma readable_dec (w : world) (path : string) :
  {readable w path} + {~ readable w path}.
Proof.
  unfold readable.
  destruct (file_content w path) as [fp|], (fclose_fails w path);
    try (left; split; [discriminate | reflexivity]);
    right; intros (Ho & Hc); congruence.
Qed.

Lemma main_loop_outcome (w : world) :
  (forall i, allocates (allocations w i)) ->
  forall files i, loop_outcome w files (result (Mapinfo.main_loop w files i)).
Proof.
  intros Hheap. induction files as [|path rest IH]; intros i.
  - left. split; [reflexivity | constructor].
  - destruct (readable_dec w path) as [Hpath|Hpath].
    + rewrite (main_loop_step w Hheap path rest i Hpath). cbn [result snd].
      destruct (IH (S i)) as [(Hr & Hall)|(Hr & Hnot)].
      * left. split; [exact Hr | constructor; assumption].
      * right. split; [exact Hr|]. intros Hall. apply Hnot.
        inversion Hall; assumption.
    + right. split.
      * destruct (file_content w path) as [fp|] eqn:Eo.
        -- destruct (fclose_fails w path) eqn:Ec.
           ++ right.
              rewrite (main_loop_unclosable w path rest i)
                by (try rewrite Eo; try discriminate; exact Ec).
              reflexivity.
           ++ exfalso. apply Hpath. split; [rewrite Eo; discriminate | exact Ec].
        -- left. rewrite (main_loop_unopenable w path rest i Eo). reflexivity.
      * intros Hall. apply Hpath. inversion Hall; assumption.
Qed.

(** X6. With allocations that succeed and at least one file argument,
    [main] of the classifying dumper ends in one of three ways: it returns
    [EXIT_SUCCESS], or exits with [error_fopen] or [error_fclose]; it
    returns exactly when every file opens and closes, and it never faults.
    With no file argument it prints only to standard error and exits with
    [EXIT_FAILURE]. *)
Theorem main_outcomes (w : world) (prgname : string) (files : list string) :
  (forall i, allocates (allocations w i)) -> files <> [] ->
  batch_outcome (result (Mapinfo.main w (prgname :: files)))
  /\ (result (Mapinfo.main w (prgname :: files)) = Returned EXIT_SUCCESS <->
      Forall (readable w) files)
  /\ result (Mapinfo.main w [prgname]) = Exited EXIT_FAILURE
  /\ Forall (fun e => exists text, e = Stderr text)
       (events (Mapinfo.main w [prgname])).
Proof.
  intros Hheap Hfiles.
  rewrite (main_runs_loop w prgname files Hfiles), result_then_ret.
  unfold batch_outcome.
  destruct (main_loop_outcome w Hheap files 1) as [(-> & Hall)|([->| ->] & Hnot)].
  - split; [left; reflexivity|]. split; [tauto|].
    split; [reflexivity|]. repeat constructor; eexists; reflexivity.
  - split; [right; left; reflexivity|].
    split; [split; [discriminate | tauto]|].
    split; [reflexivity|]. repeat constructor; eexists; reflexivity.
  - split; [right; right; reflexivity|].
    split; [split; [discriminate | tauto]|].
    split; [reflexivity|]. repeat constructor; eexists; reflexivity.
Qed.

Lemma main_outcomes_witness :
  (forall i, allocates (allocations (sample_world heap_stale) i))
  /\ (result (Mapinfo.main (sample_world heap_stale)
                ["mapinfo"; "cut.map"; "empty.map"]) = Returned EXIT_SUCCESS <->
      Forall (readable (sample_world heap_stale)) ["cut.map"; "empty.map"]).
Proof.
  assert (forall i, allocates (allocations (sample_world heap_stale) i))
    as Hheap by (intros i; repeat split; discriminate).
  split; [exact Hheap|].
  destruct (main_outcomes (sample_world heap_stale) "mapinfo"
              ["cut.map"; "empty.map"] Hheap ltac:(discriminate))
    as (_ & H & _).
  exact H.
Defined.

(** ** The summary dumper's batch *)

Section SummaryBatch.

Variable w : world.

Lemma summary_print_returns (m : map_t) (path : string) :
  MapinfoSummary.map_print m path
  = (events (MapinfoSummary.map_print m path), Returned tt).
Proof. reflexivity. Qed.

Lemma summary_loop_step (path : string) (rest : list string) (i : nat) :
  readable w path ->
  MapinfoSummary.main_loop w (path :: rest) i
  = (summary_line w i path ++ events (MapinfoSummary.main_loop w rest (S i)),
     result (MapinfoSummary.main_loop w rest (S i))).
Proof.
  intros (Hopen & Hclose).
  destruct (file_content w path) as [fp|] eqn:E; [|congruence].
  cbn [MapinfoSummary.main_loop]. unfold MapinfoSummary.map_read.
  rewrite (map_read_returns _ _ _ _ _ fp E Hclose), bind_ret.
  rewrite summary_print_returns, bind_returned.
  unfold summary_line. rewrite E. reflexivity.
Qed.

Lemma summary_loop_outcome :
  forall files i,
    loop_outcome w files (result (MapinfoSummary.main_loop w files i)).
Proof.
  induction files as [|path rest IH]; intros i.
  - left. split; [reflexivity | constructor].
  - destruct (readable_dec w path) as [Hpath|Hpath].
    + rewrite (summary_loop_step path rest i Hpath). cbn [result snd].
      destruct (IH (S i)) as [(Hr & Hall)|(Hr & Hnot)].
      * left. split; [exact Hr | constructor; assumption].
      * right. split; [exact Hr|]. intros Hall. apply Hnot.
        inversion Hall; assumption.
    + right. split.
      * cbn [MapinfoSummary.main_loop]. unfold MapinfoSummary.map_read.
        destruct (file_content w path) as [fp|] eqn:Eo.
        -- destruct (fclose_fails w path) eqn:Ec.
           ++ right. rewrite (map_read_unclosable _ _ _ _ _ fp Eo Ec).
              reflexivity.
           ++ exfalso. apply Hpath. split; [rewrite Eo; discriminate | exact Ec].
        -- left. rewrite (map_read_unopenable _ _ _ _ _ Eo). reflexivity.
      * intros Hall. apply Hpath. inversion Hall; assumption.
Qed.

Lemma summary_loop_readable :
  forall files i, Forall (readable w) files ->
    MapinfoSummary.main_loop w files i = (summary_lines w i files, Returned tt)
    /\ length (summary_lines w i files) = length files.
Proof.
  induction files as [|path rest IH]; intros i Hall.
  - split; reflexivity.
  - inversion Hall as [|? ? Hpath Hrest]; subst.
    destruct (IH (S i) Hrest) as (Hloop & Hlen).
    rewrite (summary_loop_step path rest i Hpath), Hloop.
    cbn [events result fst snd summary_lines length].
    split; [reflexivity|].
    rewrite length_app, Hlen. unfold summary_line.
    destruct Hpath as (Hopen & _).
    destruct (file_content w path); [reflexivity | congruence].
Qed.

End SummaryBatch.

(** X7. With at least one file argument, [main] of the summary dumper,
    whatever [malloc] returns, ends by returning [EXIT_SUCCESS] or by exiting with [error_fopen] or
    [error_fclose], and returns exactly when every file opens and closes;
    it then has printed one line per file, in argument order. *)
Theorem summary_main_outcomes (w : world) (prgname : string)
        (files : list string) :
  files <> [] ->
  batch_outcome (result (MapinfoSummary.main w (prgname :: files)))
  /\ (result (MapinfoSummary.main w (prgname :: files)) = Returned EXIT_SUCCESS
      <-> Forall (readable w) files)
  /\ (Forall (readable w) files ->
      events (MapinfoSummary.main w (prgname :: files)) = summary_lines w 1 files
      /\ length (summary_lines w 1 files) = length files).
Proof.
  intros Hfiles.
  assert (MapinfoSummary.main w (prgname :: files)
          = bind (MapinfoSummary.main_loop w files 1)
              (fun _ => ret EXIT_SUCCESS)) as Hmain
      by (destruct files; [congruence | reflexivity]).
  rewrite Hmain, result_then_ret. unfold batch_outcome.
  assert (Forall (readable w) files ->
          events (bind (MapinfoSummary.main_loop w files 1)
                    (fun _ => ret EXIT_SUCCESS)) = summary_lines w 1 files
          /\ length (summary_lines w 1 files) = length files) as Hlines.
  { intros Hall. destruct (summary_loop_readable w files 1 Hall) as (-> & Hlen).
    split; [|exact Hlen].
    rewrite bind_returned. cbn [events fst ret]. apply List.app_nil_r. }
  destruct (summary_loop_outcome w files 1) as [(-> & Hall)|([->| ->] & Hnot)].
  - split; [left; reflexivity|]. split; [tauto | exact Hlines].
  - split; [right; left; reflexivity|].
    split; [split; [discriminate | tauto] | exact Hlines].
  - split; [right; right; reflexivity|].
    split; [split; [discriminate | tauto] | exact Hlines].
Qed.

Lemma summary_main_outcomes_witness :
  Forall (readable (sample_world heap_no_sprites)) ["cut.map"; "empty.map"]
  /\ length (events (MapinfoSummary.main (sample_world heap_no_sprites)
                       ["mapinfo"; "cut.map"; "empty.map"])) = 2%nat.
Proof.
  assert (Forall (readable (sample_world heap_no_sprites))
            ["cut.map"; "empty.map"]) as Hall.
  { repeat constructor; discriminate. }
  split; [exact Hall|].
  destruct (summary_main_outcomes (sample_world heap_no_sprites) "mapinfo"
              ["cut.map"; "empty.map"] ltac:(discriminate))
    as (_ & _ & H).
  destruct (H Hall) as (-> & Hlen). exact Hlen.
Defined.

(** ** The two decoders side by side *)

Ltac retag_step :=
  match goal with
  | |- context [fread t_ushort ?o ?f] =>
      try rewrite (fread_short_of_ushort o f);
      destruct (fread t_ushort o f) as [? ?]; cbn [fst snd]
  | |- context [fread ?t ?o ?f] =>
      lazymatch f with
      | snd _ => fail
      | _ => idtac
      end;
      destruct (fread t o f) as [? ?]; cbn [fst snd]
  end.

Lemma sprite_read_retag (old : sprite_t) (fp : FILE) :
  MapinfoSummary.sprite_read old fp
  = (retag (fst (Mapinfo.sprite_read old fp)),
     snd (Mapinfo.sprite_read old fp)).
Proof.
  unfold MapinfoSummary.sprite_read, Mapinfo.sprite_read,
    MapinfoSummary.tag_t, Mapinfo.tag_t, sprite_read_as, rbind, rret.
  repeat retag_step.
  reflexivity.
Qed.

Lemma read_array_retag (a : list sprite_t) :
  forall fp,
    read_array MapinfoSummary.sprite_read a fp
    = (map retag (fst (read_array Mapinfo.sprite_read a fp)),
       snd (read_array Mapinfo.sprite_read a fp)).
Proof.
  induction a as [|x a IH]; intros fp; cbn [read_array]; [reflexivity|].
  unfold rbind, rret. rewrite sprite_read_retag.
  destruct (Mapinfo.sprite_read x fp) as [x' fp1]. cbn [fst snd].
  rewrite IH.
  destruct (read_array Mapinfo.sprite_read a fp1) as [a' fp2]. reflexivity.
Qed.

Lemma read_elements_retag (p : option (list sprite_t)) (fp : FILE) :
  read_elements MapinfoSummary.sprite_read p fp
  = (option_map (map retag) (fst (read_elements Mapinfo.sprite_read p fp)),
     snd (read_elements Mapinfo.sprite_read p fp)).
Proof.
  destruct p as [a|]; cbn [read_elements]; [|reflexivity].
  unfold rbind, rret. rewrite read_array_retag.
  destruct (read_array Mapinfo.sprite_read a fp). reflexivity.
Qed.

(** X8. On the same stream the two dumpers read the same map but for the
    sprites' lotag and hitag, which the summary dumper reads as the signed
    value of what the classifying dumper reads; they consume the same
    bytes, and the summary line is the same for either map. *)
Theorem dumpers_differ_in_sprite_tags_only (heap : heap_t) (m : map_t)
        (fp : FILE) (path : string) :
  let classified := Mapinfo.map_read_stream heap m fp in
  let summarized := MapinfoSummary.map_read_stream heap m fp in
  fst summarized
  = with_sprites (fst classified)
      (option_map (map retag) (sprite (fst classified)))
  /\ snd summarized = snd classified
  /\ MapinfoSummary.map_print (fst summarized) path
     = MapinfoSummary.map_print (fst classified) path.
Proof.
  cbv zeta.
  assert (fst (MapinfoSummary.map_read_stream heap m fp)
          = with_sprites (fst (Mapinfo.map_read_stream heap m fp))
              (option_map (map retag)
                 (sprite (fst (Mapinfo.map_read_stream heap m fp))))
          /\ snd (MapinfoSummary.map_read_stream heap m fp)
             = snd (Mapinfo.map_read_stream heap m fp)) as (Hmap & Hrest).
  { unfold MapinfoSummary.map_read_stream, Mapinfo.map_read_stream.
    rewrite !map_read_stream_phases. cbv zeta.
    change (sprite_read_as MapinfoSummary.tag_t) with MapinfoSummary.sprite_read.
    change (sprite_read_as Mapinfo.tag_t) with Mapinfo.sprite_read.
    rewrite read_elements_retag. split; reflexivity. }
  split; [exact Hmap|]. split; [exact Hrest|].
  rewrite Hmap. reflexivity.
Qed.

(** ** Output on complete files *)




(** ** Arrays the stream leaves unfinished *)

Lemma sector_read_keeps (s : sector_t) :
  sector_in_range s -> sector_read s [] = (s, []).
Proof.
  destruct s as [wp wc [cs ch cp csl cst cpa [cx cy]]
                   [fs fh fpi fsl fst' fpa [fx fy]] vis fil lo hi ex].
  unfold sector_in_range, plane_in_range, sector_read, rbind, rret.
  cbn [wall_ptr sector_wall_count ceilling floor visibility sector_filler
         sector_lotag sector_hitag sector_extra cf_shade cf_height cf_pic
         cf_slope cf_stat cf_palette cf_panning v2u8_x v2u8_y].
  intros H. decompose [and] H. clear H.
  repeat (rewrite fread_at_end by assumption; cbv beta iota).
  reflexivity.
Qed.

Lemma read_array_at_end_keeps {A} (read : A -> reader A) (P : A -> Prop)
      (a : list A) :
  (forall x, P x -> read x [] = (x, [])) -> Forall P a ->
  read_array read a [] = (a, []).
Proof.
  intros Hread. induction 1 as [|x a Hx _ IH]; [reflexivity|].
  cbn [read_array]. unfold rbind, rret. rewrite (Hread x Hx), IH. reflexivity.
Qed.

Lemma read_array_app {A} (n : nat) (read : A -> reader A) (a b : list A) :
  (forall x, consumes n (read x)) ->
  forall fp,
    read_array read (a ++ b) fp
    = (fst (read_array read a fp)
         ++ fst (read_array read b (skipn (n * length a) fp)),
       snd (read_array read b (skipn (n * length a) fp))).
Proof.
  intros Hrest. induction a as [|x a IH]; intros fp.
  - cbn [app length read_array rret fst]. rewrite Nat.mul_0_r.
    cbn [skipn]. destruct (read_array read b fp); reflexivity.
  - cbn [app length read_array]. unfold rbind, rret.
    pose proof (Hrest x fp) as Hx. destruct (read x fp) as [x' fp1].
    cbn [snd] in Hx. subst fp1.
    rewrite IH, skipn_skipn.
    replace (n * length a + n)%nat with (n * S (length a))%nat by lia.
    destruct (read_array read a (skipn n fp)) as [a' fp2].
    destruct (read_array read b (skipn (n * S (length a)) fp)).
    reflexivity.
Qed.

(** X12. When the stream ends exactly after some of the sector records of
    an array, the loop of [map_read] sets those elements from the stream,
    whatever they held, and leaves every later element as it was. *)
Theorem unfinished_sector_array (present absent stale : list sector_t)
        (fp : FILE) :
  length fp = (40 * length present)%nat ->
  length stale = length present ->
  Forall sector_in_range absent ->
  read_array sector_read (present ++ absent) fp
  = (fst (read_array sector_read stale fp) ++ absent, []).
Proof.
  intros Hfp Hstale Habsent.
  rewrite (read_array_app 40 sector_read present absent sector_read_consumes).
  rewrite skipn_all2 by lia.
  rewrite (read_array_at_end_keeps sector_read sector_in_range absent
             sector_read_keeps Habsent).
  cbn [fst snd].
  rewrite (read_array_overwrites 40 sector_read sector_read_consumes
             sector_read_overwrites present stale fp) by lia.
  reflexivity.
Qed.

Lemma records_have_fixed_sizes_witness :
  (44 <= length switch_record)%nat
  /\ Mapinfo.sprite_read sprite_zero switch_record
     = Mapinfo.sprite_read (marker 142 65535 14) switch_record.
Proof.
  split; [cbn; lia|].
  destruct records_have_fixed_sizes as (_ & _ & _ & _ & _ & _ & H & _).
  apply H. cbn. lia.
Defined.

Lemma unfinished_sector_array_witness :
  length blank_sector_record = (40 * length [wild_sector])%nat
  /\ Forall sector_in_range [wild_sector]
  /\ read_array sector_read ([wild_sector] ++ [wild_sector]) blank_sector_record
     = ([sector_zero; wild_sector], []).
Proof.
  assert (Forall sector_in_range [wild_sector]) as Habsent.
  { repeat constructor; unfold in_range; cbn; lia. }
  split; [reflexivity|]. split; [exact Habsent|].
  rewrite (unfinished_sector_array [wild_sector] [wild_sector] [sector_zero]
             blank_sector_record eq_refl eq_refl Habsent).
  reflexivity.
Defined.

(** ** What a cut stream leaves untouched *)








Section CutStream.

Variables (tag_t : ctype) (heap : heap_t) (fp : FILE).

Let m : map_t := fst (map_read_stream_as tag_t heap map_zero fp).







End CutStream.



(** ** The batch loop, file by file *)

Lemma report_is_full (w : world) (i : nat) (path : string) (fp : FILE) :
  allocates (allocations w i) -> file_content w path = Some fp ->
  report w i path
  = report_lines (fst (Mapinfo.map_read_stream (allocations w i) map_zero fp))
      path
  /\ (8 <= length (report w i path))%nat.
Proof.
  intros Hheap Hopen.
  assert (report w i path
          = report_lines
              (fst (Mapinfo.map_read_stream (allocations w i) map_zero fp))
              path) as Hreport.
  { unfold report. rewrite Hopen.
    rewrite (map_print_lines
               (fst (Mapinfo.map_read_stream (allocations w i) map_zero fp))
               path
               (map_read_stream_decoded Mapinfo.tag_t _ map_zero fp Hheap)).
    reflexivity. }
  split; [exact Hreport|].
  rewrite Hreport. unfold report_lines. rewrite !length_app.
  cbn [length]. lia.
Qed.

(** C8, as the code has it. When every allocation succeeds, [main] reports
    the files in argument order as long as each opens and closes, and
    returns [EXIT_SUCCESS] when all do. At the first file that cannot be
    opened it calls [perror] and exits the process with status
    [error_fopen], at the first that cannot be closed with [error_fclose],
    in both cases after the reports of the files before it and without a
    report for that file or a look at the files after it. No decoding
    failure exists to be reported: under the same condition every file that
    opens and closes gets its report, the lines of [report_lines] for the
    map read from it, eight at least. *)
Theorem main_stops_at_first_failure (w : world) (prgname : string)
        (before after : list string) (bad : string) :
  (forall i, allocates (allocations w i)) ->
  Forall (readable w) before ->
  (Forall (readable w) after ->
   Mapinfo.main w (prgname :: before ++ bad :: after)
   = (if fclose_fails w bad then
        match file_content w bad with
        | Some _ => (reports w 1 before ++ [Perror "fclose"], Exited error_fclose)
        | None => (reports w 1 before ++ [Perror "fopen"], Exited error_fopen)
        end
      else
        match file_content w bad with
        | Some _ => (reports w 1 (before ++ bad :: after), Returned EXIT_SUCCESS)
        | None => (reports w 1 before ++ [Perror "fopen"], Exited error_fopen)
        end))
  /\ (file_content w bad = None ->
      Mapinfo.main w (prgname :: before ++ bad :: after)
      = (reports w 1 before ++ [Perror "fopen"], Exited error_fopen))
  /\ (file_content w bad <> None -> fclose_fails w bad = true ->
      Mapinfo.main w (prgname :: before ++ bad :: after)
      = (reports w 1 before ++ [Perror "fclose"], Exited error_fclose))
  /\ (forall i path fp,
         file_content w path = Some fp ->
         report w i path
         = report_lines
             (fst (Mapinfo.map_read_stream (allocations w i) map_zero fp)) path
         /\ (8 <= length (report w i path))%nat).
Proof.
  intros Hheap Hbefore.
  assert (before ++ bad :: after <> []) as Hne
      by (destruct before; discriminate).
  assert (Hopen : file_content w bad = None ->
                  Mapinfo.main w (prgname :: before ++ bad :: after)
                  = (reports w 1 before ++ [Perror "fopen"], Exited error_fopen)).
  { intros Hbad. rewrite (main_runs_loop w prgname _ Hne).
    rewrite (main_loop_readable w Hheap before _ 1 Hbefore).
    rewrite (main_loop_unopenable w bad after _ Hbad). reflexivity. }
  assert (Hclose : file_content w bad <> None -> fclose_fails w bad = true ->
                   Mapinfo.main w (prgname :: before ++ bad :: after)
                   = (reports w 1 before ++ [Perror "fclose"], Exited error_fclose)).
  { intros Hok Hbad. rewrite (main_runs_loop w prgname _ Hne).
    rewrite (main_loop_readable w Hheap before _ 1 Hbefore).
    rewrite (main_loop_unclosable w bad after _ Hok Hbad). reflexivity. }
  split; [|split; [exact Hopen|split; [exact Hclose|]]];
    [|intros i path fp; apply report_is_full, Hheap].
  intros Hafter.
  destruct (fclose_fails w bad) eqn:Ec, (file_content w bad) as [fp|] eqn:Eo;
    try (apply Hopen; reflexivity);
    try (apply Hclose; [discriminate | reflexivity]).
  rewrite (main_runs_loop w prgname _ Hne).
  pose proof (main_loop_readable w Hheap (before ++ bad :: after) [] 1) as Hall.
  rewrite List.app_nil_r in Hall. rewrite Hall.
  - cbn [Mapinfo.main_loop events result fst snd ret].
    rewrite List.app_nil_r, bind_returned.
    cbn [events result fst snd ret]. rewrite List.app_nil_r. reflexivity.
  - apply Forall_app. split; [exact Hbefore|].
    constructor; [|exact Hafter].
    split; [rewrite Eo; discriminate | exact Ec].
Qed.

Lemma main_stops_at_first_failure_witness :
  (forall i, allocates (allocations (sample_world heap_zero) i))
  /\ Forall (readable (sample_world heap_zero)) ["cut.map"]
  /\ Mapinfo.main (sample_world heap_zero)
       ("mapinfo" :: ["cut.map"] ++ "missing.map" :: ["empty.map"])
     = (reports (sample_world heap_zero) 1 ["cut.map"] ++ [Perror "fopen"],
        Exited error_fopen)
  /\ (8 <= length (report (sample_world heap_zero) 1 "cut.map"))%nat.
Proof.
  assert (forall i, allocates (allocations (sample_world heap_zero) i))
    as Hheap.
  { intros i. repeat split; discriminate. }
  assert (Forall (readable (sample_world heap_zero)) ["cut.map"]) as Hbefore.
  { repeat constructor. discriminate. }
  split; [exact Hheap|]. split; [exact Hbefore|].
  destruct (main_stops_at_first_failure (sample_world heap_zero) "mapinfo"
              ["cut.map"] ["empty.map"] "missing.map" Hheap Hbefore)
    as (_ & Hopen & _ & Hreport).
  split; [apply Hopen; reflexivity|].
  apply (Hreport 1%nat "cut.map" cut_map_file eq_refl).
Defined.

(** ** A failed allocation under the classifier *)

(** C6. The code at an input it can receive: a complete file that
    declares one sprite, read while [malloc] returns [NULL] for the sprite
    array. [map_read] skips its loop, as its test of the pointer asks,
    and returns the map with a sprite count of 1 and no array; the
    classifier has no such test, so each of its three scans subscripts the
    null pointer at index 0, and [main] ends in that fault after two lines
    of the report. *)
Theorem classifier_reads_through_null :
  let w := one_file_world "switch.map" switch_map_file heap_no_sprites in
  let m := fst (Mapinfo.map_read_stream heap_no_sprites map_zero switch_map_file) in
  truncated switch_map_file = false
  /\ Mapinfo.map_read w heap_no_sprites map_zero "switch.map" = ret m
  /\ sprite_count m = 1
  /\ sprite m = None
  /\ index (sprite m) 0 = ([], Fault)
  /\ Mapinfo.is_single_player m = ([], Fault)
  /\ Mapinfo.is_coop m "" = ([], Fault)
  /\ Mapinfo.is_dukematch m "" = ([], Fault)
  /\ result (Mapinfo.main w ["mapinfo"; "switch.map"]) = Fault
  /\ length (events (Mapinfo.main w ["mapinfo"; "switch.map"])) = 2%nat.
Proof. cbv zeta. repeat split; vm_compute; reflexivity. Qed.
